(** * slyn-state-factory: the state registry of [lib/index.js]

    A shallow embedding of the hierarchical state registry (the
    constructor [stateFactory], [isRelative], [queueState],
    [registerState], [findState] and the nine rules of [stateBuilder]),
    followed by the properties of the registry that its specification
    states and by further properties of the code, among them of the entry
    point [state].

    Conventions of the embedding.
    - A JavaScript string is a [string] of 8-bit characters.
    - An object used as a dictionary ([states], [queue], [includes],
      [views], [data]) is a finite map; property names inherited from
      [Object.prototype] are not part of the model.
    - A reference to a state object is the name under which the registry
      holds it: [registerState] never replaces or removes an entry of
      [states], so a name denotes one object for the life of the factory.
    - An exception is a value of [error]; a call returns the factory as
      it stands when the call ends, together with either its value or the
      exception it raised.
    - The URL matcher ([slyn-url-matcher-factory]) is an interface,
      [UrlMatcherFactory]; the type tests of [slyn-util-helper] are read
      off the shape of the declaration.
    - [registerState] calls itself on the declarations queued under the
      name it has just stored; the embedding bounds the depth of these
      calls by a number, [fuel], and returns [None] when the bound is
      reached. *)

From stdpp Require Import gmap strings list fin_maps.
From Stdlib Require Import Ascii String.

Local Open Scope string_scope.

(** ** Strings as the code uses them *)

Module JsString.

(** [s.indexOf(c) >= 0] for a one-character [c]. *)
Fixpoint has_char (c : ascii) (s : string) : bool :=
  match s with
  | EmptyString => false
  | String a s' => if Ascii.eqb a c then true else has_char c s'
  end.

(** [s.indexOf(c) === 0] for a one-character [c], also
    [s.charAt(0) == c]. *)
Definition starts_with (c : ascii) (s : string) : bool :=
  match s with
  | EmptyString => false
  | String a _ => Ascii.eqb a c
  end.

(** [s.substring(1)]. *)
Definition drop_first (s : string) : string :=
  match s with
  | EmptyString => EmptyString
  | String _ s' => s'
  end.

(** Truthiness of a string: non-empty. *)
Definition truthy (s : string) : bool :=
  match s with
  | EmptyString => false
  | String _ _ => true
  end.

(** [s.substring(0, s.lastIndexOf(c))] when [c] occurs in [s], [None]
    when [s.lastIndexOf(c)] is [-1]. *)
Fixpoint before_last (c : ascii) (s : string) : option string :=
  match s with
  | EmptyString => None
  | String a s' =>
      match before_last c s' with
      | Some p => Some (String a p)
      | None => if Ascii.eqb a c then Some EmptyString else None
      end
  end.

(** [s.substring(s.lastIndexOf(c) + 1)]: all of [s] when [c] does not
    occur. *)
Fixpoint after_last (c : ascii) (s : string) : string :=
  match s with
  | EmptyString => EmptyString
  | String a s' =>
      if has_char c s' then after_last c s'
      else if Ascii.eqb a c then s' else s
  end.

(** [s.split(c)]: never empty, [""] splits into [[""]]. *)
Fixpoint split (c : ascii) (s : string) : list string :=
  match s with
  | EmptyString => [EmptyString]
  | String a s' =>
      if Ascii.eqb a c then EmptyString :: split c s'
      else match split c s' with
           | h :: t => String a h :: t
           | [] => [String a EmptyString]
           end
  end.

(** [l.join(sep)]. *)
Fixpoint join (sep : string) (l : list string) : string :=
  match l with
  | [] => EmptyString
  | [x] => x
  | x :: l' => x ++ sep ++ join sep l'
  end.

(** The characters that [.] of a regular expression refuses: the line
    terminators (of the 8-bit characters, LF and CR). *)
Definition line_terminator (a : ascii) : bool :=
  Ascii.eqb a "010"%char || Ascii.eqb a "013"%char.

Fixpoint has_line_terminator (s : string) : bool :=
  match s with
  | EmptyString => false
  | String a s' => line_terminator a || has_line_terminator s'
  end.

End JsString.

Definition dot : ascii := "."%char.
Definition caret : ascii := "^"%char.
Definition at_sign : ascii := "@"%char.

(** ** Values, declarations, records *)

(** The values a [data] mapping holds. *)
Inductive jsval : Type :=
| JNull
| JBool (b : bool)
| JNum (n : Z)
| JStr (s : string).

(** The exceptions the registry raises.  The first eight are the [Error]s
    thrown by the code, named after the taxonomy of the specification;
    [TypeError] and [ReferenceError] are raised by the language itself: a
    property read or written on [undefined], named by the expression that
    fails, and a free identifier.
    [Dangling] belongs to the embedding only: a reference, held by name,
    that the registry does not resolve (it cannot arise in a factory built
    by the constructor and [registerState], see [reachable_refs]). *)
Inductive error : Type :=
| InvalidName
    (* "State must have a valid name" *)
| DuplicateState (name : string)
    (* "State '<name>'' is already defined" *)
| InvalidUrl
    (* "Invalid url '<url>' in state '[object Object]'" *)
| InvalidParams
    (* "Invalid params in state '[object Object]'" *)
| ConflictingParamsAndUrl
    (* "Both params and url specicified in state '[object Object]'" *)
| MissingRequiredParameter (p name : string)
    (* "Missing required parameter '<p>' in state '<name>'" *)
| NoReferencePoint (name : string)
    (* "No reference point given for path '<name>'" *)
| InvalidRelativePath (name base : string)
    (* "Path '<name>' not valid for state '<base>'" *)
| TypeError (access : string)
| ReferenceError (ident : string)
| Dangling (ref : string).

Inductive result (A : Type) : Type :=
| Ok (a : A)
| Throw (e : error).
Arguments Ok {A} a.
Arguments Throw {A} e.

Definition bind {A B} (r : result A) (k : A → result B) : result B :=
  match r with
  | Ok a => k a
  | Throw e => Throw e
  end.

Notation "'try' x ':=' r 'in' k" := (bind r (fun x => k))
  (at level 10, x name, r at level 100, k at level 200).

(** The URL matcher collaborator: [compile(pattern)], [m.concat(pattern)]
    and [m.parameters()].  A value of type [matcher] is what [isMatcher]
    accepts. *)
Class UrlMatcherFactory (matcher : Type) : Type := {
  compile : string → matcher;
  concat : matcher → string → matcher;
  parameters : matcher → list string
}.

(** The declared [url]: a string, a compiled matcher, [null] or
    [undefined], or any other value. *)
Inductive url_decl (matcher : Type) : Type :=
| UrlNone
| UrlStr (s : string)
| UrlMatcher (m : matcher)
| UrlOther (v : jsval).
Arguments UrlNone {matcher}.
Arguments UrlStr {matcher} s.
Arguments UrlMatcher {matcher} m.
Arguments UrlOther {matcher} v.

(** The declared [params]: a falsy value (absent), an array of names, or
    another truthy value. *)
Inductive params_decl : Type :=
| ParamsAbsent
| ParamsArray (l : list string)
| ParamsOther (v : jsval).

(** The declared [views]: [undefined], [null], or a mapping from slot
    name to view configuration, in enumeration order.  A configuration is
    an opaque token. *)
Inductive views_decl : Type :=
| ViewsUndefined
| ViewsNull
| ViewsMap (l : list (string * string)).

(** What a slot of the resolved [views] holds: the state itself (the
    slot made up when no [views] is declared) or a declared
    configuration. *)
Inductive view : Type :=
| ViewSelf
| ViewCfg (cfg : string).

(** A declaration, [{ name?, parent?, url?, data?, params?, views?,
    abstract? }].  [d_name] is [None] when [name] is not a string;
    [d_parent] is [None] when [parent] is [undefined]. *)
Record decl (matcher : Type) : Type := Decl {
  d_name : option string;
  d_parent : option string;
  d_url : url_decl matcher;
  d_data : option (gmap string jsval);
  d_params : params_decl;
  d_views : views_decl;
  d_abstract : option bool
}.
Arguments Decl {matcher}.
Arguments d_name {matcher}.
Arguments d_parent {matcher}.
Arguments d_url {matcher}.
Arguments d_data {matcher}.
Arguments d_params {matcher}.
Arguments d_views {matcher}.
Arguments d_abstract {matcher}.

(** A resolved state: the declaration after the rules of [stateBuilder]
    have overwritten its fields.  [st_parent], [st_navigable] and the
    elements of [st_path] are references. *)
Record record (matcher : Type) : Type := Record_ {
  st_name : string;
  st_parent : option string;
  st_data : option (gmap string jsval);
  st_url : option matcher;
  st_navigable : option string;
  st_params : list string;
  st_views : gmap string view;
  st_ownParams : list string;
  st_path : list string;
  st_includes : gmap string bool;
  st_abstract : option bool
}.
Arguments Record_ {matcher}.
Arguments st_name {matcher}.
Arguments st_parent {matcher}.
Arguments st_data {matcher}.
Arguments st_url {matcher}.
Arguments st_navigable {matcher}.
Arguments st_params {matcher}.
Arguments st_views {matcher}.
Arguments st_ownParams {matcher}.
Arguments st_path {matcher}.
Arguments st_includes {matcher}.
Arguments st_abstract {matcher}.

(** The factory: [this.states], [this.queue] and [this.root]
    ([this.defaultState] is never read). *)
Record factory (matcher : Type) : Type := Factory {
  states : gmap string (record matcher);
  queue : gmap string (list (decl matcher));
  root : option string
}.
Arguments Factory {matcher}.
Arguments states {matcher}.
Arguments queue {matcher}.
Arguments root {matcher}.

(** ** The registry *)

Section Registry.

Context {matcher : Type} `{UrlMatcherFactory matcher}.

Local Abbreviation decl := (decl matcher).
Local Abbreviation record := (record matcher).
Local Abbreviation factory := (factory matcher).

(** [self.root], dereferenced. *)
Definition deref_root (F : factory) : option record :=
  match root F with
  | Some k => states F !! k
  | None => None
  end.

(** [stateFactory.prototype.isRelative]. *)
Definition isRelative (stateName : string) : bool :=
  JsString.starts_with dot stateName || JsString.starts_with caret stateName.

(** [stateFactory.prototype.queueState]. *)
Definition queueState (F : factory) (parentName : string) (state : decl) : factory :=
  Factory (states F)
          (<[parentName := (default [] (queue F !! parentName) ++ [state])%list]>
             (queue F))
          (root F).

(** The loop of [findState] over the segments [rel] of a relative
    name, from index [i]: the anchor it reaches and the segments it
    leaves, [rel.slice(i)]. *)
Fixpoint findState_walk (F : factory) (name : string) (base : record)
    (i : nat) (rel : list string) (current : record) : result (record * list string) :=
  match rel with
  | [] => Ok (current, [])
  | seg :: rest =>
      if String.eqb seg "" && Nat.eqb i 0 then
        findState_walk F name base (S i) rest base
      else if String.eqb seg "^" then
        match st_parent current with
        | None => Throw (InvalidRelativePath name (st_name base))
        | Some k =>
            match states F !! k with
            | Some p => findState_walk F name base (S i) rest p
            | None => Throw (Dangling k)
            end
        end
      else Ok (current, rel)
  end.

(** [stateFactory.prototype.findState], for a reference given as a
    string; [None] is [undefined]. *)
Definition findState (F : factory) (stateOrName : string) (base : option record)
    : result (option record) :=
  if isRelative stateOrName then
    match base with
    | None => Throw (NoReferencePoint stateOrName)
    | Some b =>
        try w := findState_walk F stateOrName b 0 (JsString.split dot stateOrName) b in
        let current := fst w in
        let rel := JsString.join "." (snd w) in
        let separator :=
          if JsString.truthy (st_name current) && JsString.truthy rel then "." else "" in
        let name := st_name current ++ separator ++ rel in
        Ok (states F !! name)
    end
  else Ok (states F !! stateOrName).

(** [/^(.+)\.[^.]+$/.exec(name)]: the first group of the match, if the
    name matches.  [[^.]+] reaches the end of the name, so the dot of
    the pattern is the last dot of the name; the group before it is not
    empty and holds no line terminator, the part after it is not
    empty. *)
Definition compositeName (name : string) : option string :=
  match JsString.before_last dot name with
  | Some p =>
      if JsString.truthy p && negb (JsString.has_line_terminator p)
         && JsString.truthy (JsString.after_last dot name)
      then Some p else None
  | None => None
  end.

(** *** The rules of [stateBuilder], in the order of its keys *)

(** [stateBuilder.parent]. *)
Definition stateBuilder_parent (F : factory) (name : string) (declared : option string)
    : result (option record) :=
  match declared with
  | Some p =>
      if JsString.truthy p then findState F p None
      else match compositeName name with
           | Some c => findState F c None
           | None => Ok (deref_root F)
           end
  | None =>
      match compositeName name with
      | Some c => findState F c None
      | None => Ok (deref_root F)
      end
  end.

(** [_.extend({}, parentData, ownData)]. *)
Definition extend (parentData : gmap string jsval) (ownData : option (gmap string jsval))
    : gmap string jsval :=
  match ownData with
  | Some own => own ∪ parentData
  | None => parentData
  end.

(** [x.self.data = v] for a state [x]: no code of the factory gives a
    state a [self] and a declaration has none, so [x.self] is
    [undefined] and the assignment raises. *)
Definition assign_self_data (v : gmap string jsval) : result (gmap string jsval) :=
  Throw (TypeError "state.self.data").

(** [stateBuilder.data]. *)
Definition stateBuilder_data (parent : option record) (own : option (gmap string jsval))
    : result (option (gmap string jsval)) :=
  match parent with
  | Some p =>
      match st_data p with
      | Some pd =>
          try merged := assign_self_data (extend pd own) in
          Ok (Some merged)
      | None => Ok own
      end
  | None => Ok own
  end.

(** [stateBuilder.url]. *)
Definition stateBuilder_url (F : factory) (parent : option record)
    (url : url_decl matcher) : result (option matcher) :=
  match url with
  | UrlStr s =>
      if JsString.starts_with caret s then Ok (Some (compile (JsString.drop_first s)))
      else
        match parent with
        | None => Throw (TypeError "state.parent.navigable")
        | Some p =>
            try base :=
              match st_navigable p with
              | Some k =>
                  match states F !! k with
                  | Some n => Ok (Some n)
                  | None => Throw (Dangling k)
                  end
              | None => Ok (deref_root F)
              end in
            match base with
            | None => Throw (TypeError "(state.parent.navigable || self.root).url")
            | Some b =>
                match st_url b with
                | Some m => Ok (Some (concat m s))
                | None =>
                    Throw (TypeError "(state.parent.navigable || self.root).url.concat")
                end
            end
        end
  | UrlMatcher m => Ok (Some m)
  | UrlNone => Ok None
  | UrlOther _ => Throw InvalidUrl
  end.

(** [stateBuilder.navigable]. *)
Definition stateBuilder_navigable (name : string) (parent : option record)
    (url : option matcher) : option string :=
  match url with
  | Some _ => Some name
  | None =>
      match parent with
      | Some p => st_navigable p
      | None => None
      end
  end.

(** The binding of the free identifier [isArray] of the module: the
    file neither declares nor imports it, so its evaluation raises. *)
Definition isArray_binding : option (params_decl → bool) := None.

(** [stateBuilder.params]. *)
Definition stateBuilder_params (parent : option record) (url : option matcher)
    (declared : params_decl) : result (list string) :=
  match declared with
  | ParamsAbsent =>
      match url with
      | Some m => Ok (parameters m)
      | None =>
          match parent with
          | Some p => Ok (st_params p)
          | None => Throw (TypeError "state.parent.params")
          end
      end
  | _ =>
      match isArray_binding with
      | None => Throw (ReferenceError "isArray")
      | Some isArray =>
          if negb (isArray declared) then Throw InvalidParams
          else match url with
               | Some _ => Throw ConflictingParamsAndUrl
               | None =>
                   match declared with
                   | ParamsArray l => Ok l
                   | _ => Ok []
                   end
               end
      end
  end.

(** One turn of the loop of [stateBuilder.views]. *)
Definition views_step (parent : option record) (acc : result (gmap string view))
    (slot : string * view) : result (gmap string view) :=
  try views := acc in
  if JsString.has_char at_sign (fst slot) then Ok (<[fst slot := snd slot]> views)
  else match parent with
       | Some p => Ok (<[fst slot ++ "@" ++ st_name p := snd slot]> views)
       | None => Throw (TypeError "state.parent.name")
       end.

(** [stateBuilder.views].  [helper.isDefined] holds of every value but
    [undefined], so a [views] that is [null], as the root declares it,
    is handed to [_.each], which visits nothing. *)
Definition stateBuilder_views (parent : option record) (declared : views_decl)
    : result (gmap string view) :=
  let slots :=
    match declared with
    | ViewsUndefined => [("", ViewSelf)]
    | ViewsNull => []
    | ViewsMap l => map (fun kv => (fst kv, ViewCfg (snd kv))) l
    end in
  fold_left (views_step parent) slots (Ok ∅).

(** [paramNames[p] = v] on an object whose keys are kept in the order
    they were first set (the order in which [_.each] visits them, for
    names that are not array indices). *)
Fixpoint obj_set (p : string) (v : bool) (o : list (string * bool))
    : list (string * bool) :=
  match o with
  | [] => [(p, v)]
  | (k, w) :: o' => if String.eqb k p then (k, v) :: o' else (k, w) :: obj_set p v o'
  end.

(** [paramNames[p]], [undefined] read as [false]. *)
Fixpoint obj_get (p : string) (o : list (string * bool)) : bool :=
  match o with
  | [] => false
  | (k, w) :: o' => if String.eqb k p then w else obj_get p o'
  end.

(** The second loop of [stateBuilder.ownParams], over the parameters of
    the parent. *)
Fixpoint ownParams_check (name : string) (parentParams : list string)
    (paramNames : list (string * bool)) : result (list (string * bool)) :=
  match parentParams with
  | [] => Ok paramNames
  | p :: rest =>
      if negb (obj_get p paramNames) then Throw (MissingRequiredParameter p name)
      else ownParams_check name rest (obj_set p false paramNames)
  end.

(** [stateBuilder.ownParams]. *)
Definition stateBuilder_ownParams (name : string) (parent : option record)
    (params : list string) : result (list string) :=
  match parent with
  | None => Ok params
  | Some p =>
      let paramNames := fold_left (fun o q => obj_set q true o) params [] in
      try checked := ownParams_check name (st_params p) paramNames in
      Ok (map fst (filter (fun kv => snd kv = true) checked))
  end.

(** [stateBuilder.path]. *)
Definition stateBuilder_path (name : string) (parent : option record) : list string :=
  match parent with
  | Some p => (st_path p ++ [name])%list
  | None => []
  end.

(** [stateBuilder.includes]. *)
Definition stateBuilder_includes (name : string) (parent : option record)
    : gmap string bool :=
  <[name := true]> (match parent with
                    | Some p => st_includes p
                    | None => ∅
                    end).

(** The loop of [registerState] over the keys of [stateBuilder]:
    [parent], [data], [url], [navigable], [params], [views],
    [ownParams], [path], [includes] ([delegates] is not a function). *)
Definition build (F : factory) (name : string) (state : decl) : result record :=
  try parent := stateBuilder_parent F name (d_parent state) in
  try data := stateBuilder_data parent (d_data state) in
  try url := stateBuilder_url F parent (d_url state) in
  let navigable := stateBuilder_navigable name parent url in
  try params := stateBuilder_params parent url (d_params state) in
  try views := stateBuilder_views parent (d_views state) in
  try ownParams := stateBuilder_ownParams name parent params in
  let path := stateBuilder_path name parent in
  let includes := stateBuilder_includes name parent in
  Ok (Record_ name (option_map st_name parent) data url navigable params views
              ownParams path includes (d_abstract state)).

(** The parent name [registerState] waits for. *)
Definition parentName_of (name : string) (declared : option string) : string :=
  match JsString.before_last dot name with
  | Some prefix => prefix
  | None =>
      match declared with
      | Some p => p
      | None => ""
      end
  end.

(** What [registerState] returns: [undefined] when the declaration was
    queued, the state when it was stored. *)
Inductive registered : Type :=
| Deferred
| Stored (r : record).

(** The loop of [registerState] over [this.queue[name]], with [reg] for
    the recursive call. *)
Fixpoint drainQueue (reg : factory → decl → option (factory * result registered))
    (F : factory) (children : list decl) : option (factory * result unit) :=
  match children with
  | [] => Some (F, Ok tt)
  | c :: rest =>
      match reg F c with
      | Some (F', Ok _) => drainQueue reg F' rest
      | Some (F', Throw e) => Some (F', Throw e)
      | None => None
      end
  end.

(** [stateFactory.prototype.registerState].  [fuel] bounds the depth of
    the recursion through the queue: [None] when it does not suffice. *)
Fixpoint registerState (fuel : nat) (F : factory) (state : decl)
    : option (factory * result registered) :=
  match d_name state with
  | None => Some (F, Throw InvalidName)
  | Some name =>
      if JsString.has_char at_sign name then Some (F, Throw InvalidName)
      else if bool_decide (is_Some (states F !! name)) then
        Some (F, Throw (DuplicateState name))
      else
        let parentName := parentName_of name (d_parent state) in
        if JsString.truthy parentName && bool_decide (states F !! parentName = None) then
          Some (queueState F parentName state, Ok Deferred)
        else
          match build F name state with
          | Throw e => Some (F, Throw e)
          | Ok r =>
              let F1 := Factory (<[name := r]> (states F)) (queue F) (root F) in
              let reg :=
                match fuel with
                | O => fun _ _ => None
                | S n => registerState n
                end in
              match drainQueue reg F1 (default [] (queue F1 !! name)) with
              | Some (F2, Ok _) => Some (F2, Ok (Stored r))
              | Some (F2, Throw e) => Some (F2, Throw e)
              | None => None
              end
          end
  end.

(** The declaration of the root. *)
Definition rootDecl : decl :=
  Decl (Some "") None (UrlStr "^") None ParamsAbsent ViewsNull (Some true).

Definition emptyFactory : factory := Factory ∅ ∅ None.

(** [root.navigable = null]. *)
Definition clear_navigable (r : record) : record :=
  Record_ (st_name r) (st_parent r) (st_data r) (st_url r) None (st_params r)
          (st_views r) (st_ownParams r) (st_path r) (st_includes r) (st_abstract r).

(** The constructor [stateFactory]: [None] when it raises. *)
Definition stateFactory : option factory :=
  match registerState 0 emptyFactory rootDecl with
  | Some (F, Ok (Stored r)) =>
      Some (Factory (alter clear_navigable (st_name r) (states F)) (queue F)
                    (Some (st_name r)))
  | _ => None
  end.

End Registry.

(** ** A URL matcher for worked examples

    Patterns kept as text: [compile] keeps the pattern, [concat] appends
    to it, and the parameters are the names that follow a colon, each
    running to the next slash. *)

Module PatternMatcher.

(** The names after each colon of [s]; [cur] is the name being read. *)
Fixpoint scan (s : string) (cur : option string) : list string :=
  match s with
  | EmptyString =>
      match cur with
      | Some n => [n]
      | None => []
      end
  | String a s' =>
      match cur with
      | Some n =>
          if Ascii.eqb a "/"%char then n :: scan s' None
          else scan s' (Some (n ++ String a EmptyString))
      | None =>
          if Ascii.eqb a ":"%char then scan s' (Some EmptyString) else scan s' None
      end
  end.

#[export] Instance pattern_matcher : UrlMatcherFactory string := {
  compile := fun pattern => pattern;
  concat := fun m pattern => m ++ pattern;
  parameters := fun m => scan m None
}.

End PatternMatcher.

(** ** Factories that the code can build *)

Section Reachable.

Context {matcher : Type} `{UrlMatcherFactory matcher}.

(** [registerAll fuel F l]: [registerState] on each declaration of [l] in
    turn; the first exception ends the run. *)
Definition registerAll (fuel : nat) (F : factory matcher) (l : list (decl matcher))
    : option (factory matcher * result unit) :=
  drainQueue (registerState fuel) F l.

(** The factories reached from the constructor by calls of
    [registerState] that return or raise. *)
Inductive reachable : factory matcher → Prop :=
| reachable_new F :
    stateFactory = Some F → reachable F
| reachable_register fuel F state F' res :
    reachable F → registerState fuel F state = Some (F', res) → reachable F'.

(** The states whose chain of parents ends at the root. *)
Inductive rooted (F : factory matcher) : string → Prop :=
| rooted_root : rooted F ""
| rooted_child n r p :
    states F !! n = Some r → st_parent r = Some p → rooted F p → rooted F n.

(** What holds of every stored state of a reachable factory. *)
Record wf_record (F : factory matcher) (n : string) (r : record matcher) : Prop := {
  wf_name : st_name r = n;
  wf_valid : JsString.has_char at_sign n = false;
  wf_navigable :
    ∀ k, st_navigable r = Some k →
         ∃ rk, states F !! k = Some rk ∧ is_Some (st_url rk);
  wf_parent :
    match st_parent r with
    | None => st_path r = [] ∧ st_includes r = {[ n := true ]}
    | Some p =>
        ∃ rp, states F !! p = Some rp
              ∧ st_path r = (st_path rp ++ [n])%list
              ∧ st_includes r = <[n := true]> (st_includes rp)
              ∧ (∀ q, q ∈ st_params rp → q ∈ st_params r)
    end
}.

Record wf_factory (F : factory matcher) : Prop := {
  wf_root : root F = Some "";
  wf_root_record :
    ∃ rt, states F !! "" = Some rt ∧ st_parent rt = None
          ∧ st_url rt = Some (compile "") ∧ st_navigable rt = None
          ∧ st_abstract rt = Some true;
  wf_records : ∀ n r, states F !! n = Some r → wf_record F n r
}.

End Reachable.

(** ** Orders of registration *)

Section Order.
Context {matcher : Type} `{UrlMatcherFactory matcher}.
Local Abbreviation decl := (decl matcher).
Local Abbreviation record := (record matcher).
Local Abbreviation factory := (factory matcher).

(** [registerState] does not queue a declaration that waits for
    [parentName], it builds and stores it: the name is empty or
    registered. *)
Definition stores_now (F : factory) (parentName : string) : bool :=
  negb (JsString.truthy parentName && bool_decide (states F !! parentName = None)).

(** The name that [registerState] waits for is the one that
    [stateBuilder.parent] looks up: a declared non-empty [parent] is not
    overridden by a dotted name. *)
Definition waits_for_declared_parent (d : decl) : bool :=
  match d_name d, d_parent d with
  | Some n, Some p => negb (JsString.truthy p) || String.eqb (parentName_of n (Some p)) p
  | _, _ => true
  end.

(** A parent-first order: each declaration waits for the root, for a
    state that is [known], or for a declaration before it. *)
Fixpoint parent_first (known : gset string) (l : list decl) : bool :=
  match l with
  | [] => true
  | d :: l' =>
      match d_name d with
      | Some n =>
          let parentName := parentName_of n (d_parent d) in
          (negb (JsString.truthy parentName) || bool_decide (parentName ∈ known))
          && parent_first ({[ n ]} ∪ known) l'
      | None => false
      end
  end.

(** The recursive call of [registerState fuel]. *)
Definition reg_of (fuel : nat)
    : factory → decl → option (factory * result (registered (matcher := matcher))) :=
  match fuel with
  | O => fun _ _ => None
  | S n => registerState n
  end.

(** The names of the declarations of [l]. *)
Definition names_of (l : list decl) : gset string := list_to_set (omap d_name l).

Definition named_in (l : list decl) (x : string) : Prop :=
  ∃ c, c ∈ l ∧ d_name c = Some x.

(** Every queued declaration is one of [L], queued once under the name
    it waits for. *)
Definition queue_ok (L : list decl) (F : factory) : Prop :=
  ∀ k ds, queue F !! k = Some ds →
    NoDup ds
    ∧ ∀ d, d ∈ ds →
        d ∈ L ∧ ∃ n, d_name d = Some n ∧ parentName_of n (d_parent d) = k.

(** A declaration queued under a name that is not registered is not
    registered. *)
Definition waiting_unregistered (F : factory) : Prop :=
  ∀ k ds d n, queue F !! k = Some ds → states F !! k = None → d ∈ ds →
    d_name d = Some n → states F !! n = None.

(** A declaration queued under a registered name is registered, unless
    its name is in [X]. *)
Definition drained_except (X : string → Prop) (F : factory) : Prop :=
  ∀ k ds d n, queue F !! k = Some ds → is_Some (states F !! k) → d ∈ ds →
    d_name d = Some n → is_Some (states F !! n) ∨ X n.

(** From [F] to [F'] the names registered are [n] and names queued in
    [F] under names that were not registered and now are. *)
Definition registers_only (F F' : factory) (n : string) : Prop :=
  ∀ m, is_Some (states F' !! m) →
    is_Some (states F !! m) ∨ m = n
    ∨ ∃ k ds e, queue F !! k = Some ds ∧ e ∈ ds ∧ d_name e = Some m
                ∧ states F !! k = None ∧ is_Some (states F' !! k).

(** No declaration named [x] waits in [F] under an unregistered name. *)
Definition not_waiting (F : factory) (x : string) : Prop :=
  ∀ k ds e, queue F !! k = Some ds → states F !! k = None → e ∈ ds →
    d_name e ≠ Some x.

(** What the call [reg F d] does of a declaration [d] of [L], named [n],
    that it does not queue, when all but [bound] names of [L] are
    registered: it stores [d], leaves the queue as it is, registers
    nothing but [n] and declarations that waited, and leaves no
    declaration waiting under a registered name but those of [X]. *)
Definition stores_spec (L : list decl) (FM : factory)
    (reg : factory → decl → option (factory * result (registered (matcher := matcher))))
    (bound : nat) : Prop :=
  ∀ (F : factory) (d : decl) n (X : string → Prop),
    wf_factory F → states F ⊆ states FM → queue_ok L F → waiting_unregistered F →
    d ∈ L → d_name d = Some n → states F !! n = None →
    stores_now F (parentName_of n (d_parent d)) = true →
    drained_except (fun x => X x ∨ x = n) F →
    (∀ x, X x → states F !! x = None ∧ x ≠ n ∧ not_waiting F x) →
    (size (names_of L ∖ dom (states F)) ≤ bound)%nat →
    ∃ F' r,
      reg F d = Some (F', Ok (Stored r))
      ∧ wf_factory F' ∧ states F' ⊆ states FM ∧ states F ⊆ states F'
      ∧ queue F' = queue F ∧ is_Some (states F' !! n)
      ∧ registers_only F F' n ∧ drained_except X F'.

(** What holds between two calls of a run that registers declarations of
    [L] on [F0]: [seen] holds the declarations registered or queued so far,
    [FM] is the factory that the parent-first run ends in. *)
Record run_inv (L seen : list decl) (F0 FM F : factory) : Prop := {
  run_wf : wf_factory F;
  run_below : states F ⊆ states FM;
  run_above : states F0 ⊆ states F;
  run_queue : queue_ok L F;
  run_queued : ∀ k ds e, queue F !! k = Some ds → e ∈ ds → e ∈ seen;
  run_waiting : waiting_unregistered F;
  run_drained : drained_except (fun _ => False) F;
  run_dom :
    ∀ m, is_Some (states F !! m) → is_Some (states F0 !! m) ∨ named_in seen m;
  run_seen :
    ∀ d n, d ∈ seen → d_name d = Some n →
      is_Some (states F !! n)
      ∨ ∃ ds, queue F !! parentName_of n (d_parent d) = Some ds ∧ d ∈ ds
}.

End Order.

(** ** The statements of the specification, in its words *)

Section Specification.

Context {matcher : Type} `{UrlMatcherFactory matcher}.

(** The parent name as the specification of [register] words it: the
    explicit [parent] if it is a string, else the part of the name before
    its last dot, else the empty name of the root. *)
Definition spec_parentName (name : string) (declared : option string) : string :=
  match declared with
  | Some p => p
  | None =>
      match JsString.before_last dot name with
      | Some prefix => prefix
      | None => ""
      end
  end.

(** The data of a state under a parent as the specification words it:
    the data of the parent overlaid by the declared data. *)
Definition spec_data (parentData own : option (gmap string jsval))
    : option (gmap string jsval) :=
  match parentData with
  | Some pd => Some (extend pd own)
  | None => own
  end.

(** The segments left once a leading empty segment, "start from the
    base", is consumed. *)
Definition spec_start (segments : list string) : list string :=
  match segments with
  | seg :: rest => if String.eqb seg "" then rest else segments
  | [] => []
  end.

(** Each leading [^] moves the anchor to its parent, an error if it has
    none; the climb stops at the first other segment. *)
Fixpoint spec_climb (F : factory matcher) (name : string) (base : record matcher)
    (segments : list string) (anchor : record matcher)
    : result (record matcher * list string) :=
  match segments with
  | [] => Ok (anchor, [])
  | seg :: rest =>
      if String.eqb seg "^" then
        match st_parent anchor with
        | None => Throw (InvalidRelativePath name (st_name base))
        | Some k =>
            match states F !! k with
            | Some p => spec_climb F name base rest p
            | None => Throw (Dangling k)
            end
        end
      else Ok (anchor, segments)
  end.

(** The remainder joined onto the name of the anchor, with a dot between
    them only when neither is empty. *)
Definition spec_join (anchorName remainder : string) : string :=
  if JsString.truthy anchorName && JsString.truthy remainder
  then anchorName ++ "." ++ remainder
  else anchorName ++ remainder.

(** The absolute name of a relative reference. *)
Definition spec_resolve (F : factory matcher) (name : string) (base : record matcher)
    : result string :=
  try w := spec_climb F name base (spec_start (JsString.split dot name)) base in
  Ok (spec_join (st_name (fst w)) (JsString.join "." (snd w))).

(** The keys of [includes] as the specification counts them: the names
    on the path of the state and its own name, nothing else. *)
Definition includes_exactly_path (r : record matcher) : Prop :=
  ∀ k, is_Some (st_includes r !! k) ↔ k ∈ st_path r ∨ k = st_name r.

(** The keys of [includes] with the name of the root counted in. *)
Definition includes_path_and_root (r : record matcher) : Prop :=
  ∀ k, is_Some (st_includes r !! k) ↔ k ∈ st_path r ∨ k = st_name r ∨ k = "".

End Specification.

(** ** The entry point [state], the queue and the stored states *)

Section Entry.
Context {matcher : Type} `{UrlMatcherFactory matcher}.
Local Abbreviation decl := (decl matcher).
Local Abbreviation record := (record matcher).
Local Abbreviation factory := (factory matcher).

(** The arguments of [stateFactory.prototype.state]: a definition alone,
    [state(definition)], or a name that is not an object ([None] when it
    is not a string either) with a definition ([None] when it is
    [undefined]), [state(name, definition)]. *)
Inductive state_args : Type :=
| StateObject (definition : decl)
| StateNamed (name : option string) (definition : option decl).

(** [definition.name = name]. *)
Definition set_name (definition : decl) (name : option string) : decl :=
  Decl name (d_parent definition) (d_url definition) (d_data definition)
       (d_params definition) (d_views definition) (d_abstract definition).

(** [stateFactory.prototype.state]: the factory, [this], that it returns
    is the first component. *)
Definition state (fuel : nat) (F : factory) (args : state_args)
    : option (factory * result unit) :=
  let definition :=
    match args with
    | StateObject definition => Ok definition
    | StateNamed name (Some definition) => Ok (set_name definition name)
    | StateNamed name None => Throw (TypeError "definition.name")
    end in
  match definition with
  | Throw e => Some (F, Throw e)
  | Ok d =>
      match registerState fuel F d with
      | Some (F', Ok _) => Some (F', Ok tt)
      | Some (F', Throw e) => Some (F', Throw e)
      | None => None
      end
  end.

(** The names of the declarations in the queue. *)
Definition queued_names (F : factory) : gset string :=
  ⋃ (map (fun kds => names_of (snd kds)) (map_to_list (queue F))).

(** What holds of the queue of a reachable factory: a declaration waits
    under the name [registerState] computed for it, which is not
    empty, and has a valid name. *)
Definition queue_wf (F : factory) : Prop :=
  ∀ k ds e, queue F !! k = Some ds → e ∈ ds →
    JsString.truthy k = true
    ∧ ∃ n, d_name e = Some n ∧ JsString.has_char at_sign n = false
           ∧ parentName_of n (d_parent e) = k.

End Entry.

Section Detail.
Context {matcher : Type} `{UrlMatcherFactory matcher}.
Local Abbreviation decl := (decl matcher).
Local Abbreviation record := (record matcher).
Local Abbreviation factory := (factory matcher).

(** More of what holds of every stored state of a reachable factory:
    where its navigable state and its parameters come from, what its
    path holds, and that its parent has no data. *)
Record wf_detail (F : factory) (n : string) (r : record) : Prop := {
  wd_navigable :
    match st_navigable r with
    | Some k =>
        k ≠ "" ∧ st_includes r !! k = Some true
        ∧ ∃ rk m, states F !! k = Some rk ∧ st_url rk = Some m
                  ∧ st_navigable rk = Some k ∧ st_params r = parameters m
    | None => st_params r = parameters (compile "") ∧ (n ≠ "" → st_url r = None)
    end;
  wd_url : n ≠ "" → is_Some (st_url r) → st_navigable r = Some n;
  wd_inherit :
    st_url r = None →
    ∃ p rp, st_parent r = Some p ∧ states F !! p = Some rp
            ∧ st_params r = st_params rp ∧ st_navigable r = st_navigable rp;
  wd_path :
    NoDup (st_path r)
    ∧ ∀ k, k ∈ st_path r →
        k ≠ "" ∧ ∃ rk, states F !! k = Some rk
                       ∧ st_path rk `prefix_of` st_path r
                       ∧ last (st_path rk) = Some k;
  wd_data :
    ∀ p, st_parent r = Some p → ∃ rp, states F !! p = Some rp ∧ st_data rp = None
}.

Definition wf_details (F : factory) : Prop :=
  wf_factory F ∧ ∀ n r, states F !! n = Some r → wf_detail F n r.

End Detail.

(** ** Worked declarations *)

Module Examples.

Import PatternMatcher.

(** [{name: n}]. *)
Definition named (n : string) : decl string :=
  Decl (Some n) None UrlNone None ParamsAbsent ViewsUndefined None.

(** [{name: n, url: u}]. *)
Definition with_url (n u : string) : decl string :=
  Decl (Some n) None (UrlStr u) None ParamsAbsent ViewsUndefined None.

(** [{name: n, data: d}]. *)
Definition with_data (n : string) (d : gmap string jsval) : decl string :=
  Decl (Some n) None UrlNone (Some d) ParamsAbsent ViewsUndefined None.

(** [{name: "a.b", parent: "c", url: "^/b", views: {}}]. *)
Definition b_under_c : decl string :=
  Decl (Some "a.b") (Some "c") (UrlStr "^/b") None ParamsAbsent (ViewsMap []) None.

(** [{name: "x", url: "/x", params: ["p"]}]. *)
Definition x_params_url : decl string :=
  Decl (Some "x") None (UrlStr "/x") None (ParamsArray ["p"]) ViewsUndefined None.

(** A parent-first order in which ["a.b"] declares the parent ["c"], and
    the same declarations with the children first. *)
Definition c_a_b : list (decl string) := [named "c"; named "a"; b_under_c].
Definition b_a_c : list (decl string) := [b_under_c; named "a"; named "c"].

(** ["a"] requires the parameter [id], ["a.x"] has an absolute URL
    without it, ["a.y"] inherits the parameters of ["a"]. *)
Definition a_x_y : list (decl string) :=
  [with_url "a" "/a/:id"; with_url "a.x" "^/x"; named "a.y"].
Definition y_x_a : list (decl string) :=
  [named "a.y"; with_url "a.x" "^/x"; with_url "a" "/a/:id"].

(** A chain of three states, parent first and children first. *)
Definition a_b_c : list (decl string) := [named "a"; named "a.b"; named "a.b.c"].
Definition c_b_a : list (decl string) := [named "a.b.c"; named "a.b"; named "a"].

(** The factory as the constructor leaves it. *)
Definition fresh : factory string := default emptyFactory stateFactory.

(** The factory after the declarations of [l], registered in turn. *)
Definition after (l : list (decl string)) : factory string :=
  match registerAll 8 fresh l with
  | Some (F, _) => F
  | None => fresh
  end.

(** The state that [F] holds under [n]. *)
Definition stored (F : factory string) (n : string) : record string :=
  default (Record_ n None None None None [] ∅ [] [] ∅ None) (states F !! n).

End Examples.

(** * Properties *)

(** ** The registry *)

Section RegistryFacts.

Context {matcher : Type} `{UrlMatcherFactory matcher}.
Local Abbreviation decl := (decl matcher).
Local Abbreviation record := (record matcher).
Local Abbreviation factory := (factory matcher).

Lemma bind_Ok {A B} (r : result A) (k : A → result B) b :
  bind r k = Ok b → ∃ a, r = Ok a ∧ k a = Ok b.
Proof. destruct r as [a|e]; simpl; [eauto | discriminate]. Qed.

Lemma findState_no_base (F : factory) n :
  findState F n None
  = if isRelative n then Throw (NoReferencePoint n) else Ok (states F !! n).
Proof. unfold findState. destruct (isRelative n); reflexivity. Qed.

Lemma findState_no_base_Ok (F : factory) n o :
  findState F n None = Ok o → o = states F !! n.
Proof. rewrite findState_no_base. destruct (isRelative n); congruence. Qed.

(** The parent that [stateBuilder.parent] finds is stored in the
    registry. *)
Lemma stateBuilder_parent_stored (F : factory) name declared p :
  stateBuilder_parent F name declared = Ok (Some p) →
  ∃ k, states F !! k = Some p.
Proof.
  unfold stateBuilder_parent, deref_root.
  intros Hp.
  assert (Hc : match compositeName name with
               | Some c => findState F c None
               | None => Ok match root F with Some k => states F !! k | None => None end
               end = Ok (Some p) → ∃ k, states F !! k = Some p).
  { destruct (compositeName name) as [c|].
    - intros Hf. apply findState_no_base_Ok in Hf. eauto.
    - destruct (root F) as [k|]; intros [= Hf]; eauto. }
  destruct declared as [d|]; [destruct (JsString.truthy d)|]; auto.
  apply findState_no_base_Ok in Hp. eauto.
Qed.

Lemma stateFactory_eq :
  stateFactory (matcher := matcher)
  = Some (Factory {[ "" := Record_ "" None None (Some (compile "")) None
                                 (parameters (compile "")) ∅
                                 (parameters (compile "")) [] {[ "" := true ]}
                                 (Some true) ]} ∅ (Some "")).
Proof.
  unfold stateFactory. vm_compute. reflexivity.
Qed.

(** *** The object [paramNames] *)

Lemma obj_get_set p q v o :
  obj_get p (obj_set q v o) = if String.eqb q p then v else obj_get p o.
Proof.
  induction o as [|[k w] o IH]; simpl.
  - destruct (String.eqb q p); reflexivity.
  - destruct (String.eqb k q) eqn:Hkq; simpl.
    + apply String.eqb_eq in Hkq as ->. destruct (String.eqb q p); reflexivity.
    + destruct (String.eqb k p) eqn:Hkp; [|exact IH].
      apply String.eqb_eq in Hkp as ->. rewrite String.eqb_sym, Hkq. reflexivity.
Qed.

Lemma obj_get_mark_all q ps o :
  obj_get q (fold_left (fun o p => obj_set p true o) ps o) = true
  ↔ q ∈ ps ∨ obj_get q o = true.
Proof.
  revert o. induction ps as [|p ps IH]; intros o; simpl.
  - rewrite elem_of_nil. tauto.
  - rewrite IH, obj_get_set, elem_of_cons.
    destruct (String.eqb p q) eqn:Hpq.
    + apply String.eqb_eq in Hpq as ->. tauto.
    + apply String.eqb_neq in Hpq. split; [intros [?|?]|intros [[?|?]|?]]; auto; congruence.
Qed.

Lemma ownParams_check_Ok name pps o o' :
  ownParams_check name pps o = Ok o' → ∀ q, q ∈ pps → obj_get q o = true.
Proof.
  revert o. induction pps as [|p pps IH]; intros o Hc q Hq; simpl in Hc.
  - by apply elem_of_nil in Hq.
  - destruct (obj_get p o) eqn:Hp; simpl in Hc; [|discriminate].
    apply elem_of_cons in Hq as [->|Hq]; [exact Hp|].
    specialize (IH _ Hc q Hq). rewrite obj_get_set in IH.
    destruct (String.eqb p q); [discriminate | exact IH].
Qed.

Lemma ownParams_check_Throw name pps o q :
  q ∈ pps → obj_get q o = false →
  ∃ q', ownParams_check name pps o = Throw (MissingRequiredParameter q' name)
        ∧ q' ∈ pps ∧ (NoDup pps → obj_get q' o = false).
Proof.
  revert o. induction pps as [|p pps IH]; intros o Hq Hget.
  - by apply elem_of_nil in Hq.
  - simpl. destruct (obj_get p o) eqn:Hp; simpl.
    + apply elem_of_cons in Hq as [->|Hq]; [congruence|].
      destruct (IH (obj_set p false o) Hq) as (q' & Hc & Hin & Hmiss).
      { rewrite obj_get_set. destruct (String.eqb p q); [reflexivity | exact Hget]. }
      exists q'. split; [exact Hc|]. split; [by apply elem_of_cons; right|].
      intros Hnd. apply NoDup_cons in Hnd as [Hp_new Hnd].
      specialize (Hmiss Hnd). rewrite obj_get_set in Hmiss.
      destruct (String.eqb p q') eqn:Hpq; [|exact Hmiss].
      apply String.eqb_eq in Hpq as ->. contradiction.
    + exists p. split; [reflexivity|]. split; [by apply elem_of_cons; left | done].
Qed.

(** A successful [stateBuilder.ownParams] under a parent: every parameter
    of the parent is a parameter of the state. *)
Lemma stateBuilder_ownParams_superset name (p : record) ps own :
  stateBuilder_ownParams name (Some p) ps = Ok own →
  ∀ q, q ∈ st_params p → q ∈ ps.
Proof.
  unfold stateBuilder_ownParams. intros Hown q Hq.
  apply bind_Ok in Hown as (checked & Hc & _).
  apply (ownParams_check_Ok _ _ _ _ Hc) in Hq.
  apply obj_get_mark_all in Hq as [Hq|Hq]; [exact Hq | discriminate].
Qed.

(** A parameter of the parent that the state lacks makes
    [stateBuilder.ownParams] raise, for a parameter of the parent; when
    the parameters of the parent are distinct, for one the state lacks. *)
Lemma stateBuilder_ownParams_missing name (p : record) ps q :
  q ∈ st_params p → q ∉ ps →
  ∃ q', stateBuilder_ownParams name (Some p) ps
        = Throw (MissingRequiredParameter q' name)
        ∧ q' ∈ st_params p ∧ (NoDup (st_params p) → q' ∉ ps).
Proof.
  intros Hq Hn. unfold stateBuilder_ownParams.
  destruct (ownParams_check_Throw name (st_params p)
              (fold_left (fun o p => obj_set p true o) ps []) q Hq)
    as (q' & Hc & Hin & Hmiss).
  - destruct (obj_get q _) eqn:Hg; [|reflexivity].
    apply obj_get_mark_all in Hg as [Hg|Hg]; [contradiction | discriminate].
  - exists q'. rewrite Hc. split; [reflexivity|]. split; [exact Hin|].
    intros Hnd Hq'. specialize (Hmiss Hnd).
    assert (Ht : obj_get q' (fold_left (fun o p => obj_set p true o) ps []) = true)
      by (apply obj_get_mark_all; by left).
    congruence.
Qed.

(** *** Two rules that raise *)

(** Under a parent that has data, [stateBuilder.data] raises. *)
Lemma stateBuilder_data_raises (p : record) pd own :
  st_data p = Some pd →
  stateBuilder_data (Some p) own = Throw (TypeError "state.self.data").
Proof. intros Hpd. unfold stateBuilder_data. by rewrite Hpd. Qed.

(** Without data on the parent the declared data is kept, which is what
    overlaying it on no data gives. *)
Lemma stateBuilder_data_no_parent_data (p : record) own :
  st_data p = None →
  stateBuilder_data (Some p) own = Ok (spec_data (st_data p) own).
Proof. intros Hpd. unfold stateBuilder_data. by rewrite Hpd. Qed.

(** A declared [params] makes [stateBuilder.params] raise, whatever the
    [url]. *)
Lemma stateBuilder_params_raises (parent : option record) url declared :
  declared ≠ ParamsAbsent →
  stateBuilder_params parent url declared = Throw (ReferenceError "isArray").
Proof. intros Hd. by destruct declared. Qed.

(** *** What [build] computes *)

Lemma build_Ok (F : factory) name d r :
  build F name d = Ok r →
  ∃ parent data url params views own,
    stateBuilder_parent F name (d_parent d) = Ok parent
    ∧ stateBuilder_data parent (d_data d) = Ok data
    ∧ stateBuilder_url F parent (d_url d) = Ok url
    ∧ stateBuilder_params parent url (d_params d) = Ok params
    ∧ stateBuilder_views parent (d_views d) = Ok views
    ∧ stateBuilder_ownParams name parent params = Ok own
    ∧ r = Record_ name (option_map st_name parent) data url
                  (stateBuilder_navigable name parent url) params views own
                  (stateBuilder_path name parent)
                  (stateBuilder_includes name parent) (d_abstract d).
Proof.
  unfold build. intros Hb.
  apply bind_Ok in Hb as (parent & Hparent & Hb).
  apply bind_Ok in Hb as (data & Hdata & Hb).
  apply bind_Ok in Hb as (url & Hurl & Hb).
  apply bind_Ok in Hb as (params & Hparams & Hb).
  apply bind_Ok in Hb as (views & Hviews & Hb).
  apply bind_Ok in Hb as (own & Hown & Hb).
  injection Hb as <-.
  exists parent, data, url, params, views, own. auto 10.
Qed.

(** *** One step of [registerState] *)

Lemma registerState_unfold fuel (F : factory) (state : decl) :
  registerState fuel F state =
  match d_name state with
  | None => Some (F, Throw InvalidName)
  | Some name =>
      if JsString.has_char at_sign name then Some (F, Throw InvalidName)
      else if bool_decide (is_Some (states F !! name)) then
        Some (F, Throw (DuplicateState name))
      else
        let parentName := parentName_of name (d_parent state) in
        if JsString.truthy parentName && bool_decide (states F !! parentName = None) then
          Some (queueState F parentName state, Ok Deferred)
        else
          match build F name state with
          | Throw e => Some (F, Throw e)
          | Ok r =>
              let F1 := Factory (<[name := r]> (states F)) (queue F) (root F) in
              let reg :=
                match fuel with
                | O => fun _ _ => None
                | S n => registerState n
                end in
              match drainQueue reg F1 (default [] (queue F1 !! name)) with
              | Some (F2, Ok _) => Some (F2, Ok (Stored r))
              | Some (F2, Throw e) => Some (F2, Throw e)
              | None => None
              end
          end
  end.
Proof. destruct fuel; reflexivity. Qed.

Lemma drainQueue_preserves (P : factory → Prop) reg :
  (∀ F c F' res, P F → reg F c = Some (F', res) → P F') →
  ∀ l F F' res, P F → drainQueue reg F l = Some (F', res) → P F'.
Proof.
  intros Hreg l. induction l as [|c l IH]; intros F F' res HP Hd; simpl in Hd.
  - by injection Hd as <- _.
  - destruct (reg F c) as [[F1 [v|e]]|] eqn:Hc; [| |discriminate].
    + eapply IH; [|exact Hd]. eapply Hreg; eauto.
    + injection Hd as <- _. eapply Hreg; eauto.
Qed.

(** A property kept by queueing a declaration and by storing the state
    that [build] makes of a declaration with a fresh valid name is kept
    by [registerState]. *)
Lemma registerState_preserves (P : factory → Prop) :
  (∀ F parentName state, P F → P (queueState F parentName state)) →
  (∀ F name state r,
      P F → d_name state = Some name →
      JsString.has_char at_sign name = false →
      states F !! name = None →
      build F name state = Ok r →
      P (Factory (<[name := r]> (states F)) (queue F) (root F))) →
  ∀ fuel F state F' res,
    P F → registerState fuel F state = Some (F', res) → P F'.
Proof.
  intros Hqueue Hstore fuel.
  induction fuel as [|n IH]; intros F state F' res HP Hreg.
  all: rewrite registerState_unfold in Hreg.
  all: destruct (d_name state) as [name|] eqn:Hname; [|by injection Hreg as <- _].
  all: destruct (JsString.has_char at_sign name) eqn:Hat; [by injection Hreg as <- _|].
  all: case_bool_decide as Hdup; [by injection Hreg as <- _|].
  all: cbv zeta in Hreg.
  all: destruct (_ && _); [injection Hreg as <- _; by apply Hqueue|].
  all: destruct (build F name state) as [r|e] eqn:Hbuild; [|by injection Hreg as <- _].
  all: assert (Hfresh : states F !! name = None)
         by (destruct (states F !! name) eqn:E; [exfalso; apply Hdup; eauto | done]).
  all: pose proof (Hstore F name state r HP Hname Hat Hfresh Hbuild) as HP1.
  all: match type of Hreg with
       | context [drainQueue ?reg ?F1 ?l] =>
           destruct (drainQueue reg F1 l) as [[F2 [v|e]]|] eqn:Hdrain; [| |discriminate];
           injection Hreg as <- _;
           (eapply (drainQueue_preserves P reg); [|exact HP1|exact Hdrain])
       end.
  all: intros F0 c F'' res0 HP0 Hr.
  all: first [discriminate Hr | exact (IH _ _ _ _ HP0 Hr)].
Qed.

(** *** Reachable factories are well formed *)

Lemma lookup_store_other (F : factory) name (r' : record) k rk :
  states F !! name = None → states F !! k = Some rk →
  <[name := r']> (states F) !! k = Some rk.
Proof.
  intros Hfresh Hk. rewrite lookup_insert_ne; [exact Hk | congruence].
Qed.

Lemma wf_record_store (F : factory) name r' n r :
  states F !! name = None → wf_record F n r →
  wf_record (Factory (<[name := r']> (states F)) (queue F) (root F)) n r.
Proof.
  intros Hfresh [Hn Hv Hnav Hpar]. split; [exact Hn | exact Hv | |].
  - intros k Hk. destruct (Hnav k Hk) as (rk & Hrk & Hurl).
    exists rk. split; [|exact Hurl]. by apply lookup_store_other.
  - destruct (st_parent r) as [p|]; [|exact Hpar].
    destruct Hpar as (rp & Hrp & Hrest). exists rp.
    split; [|exact Hrest]. by apply lookup_store_other.
Qed.

Lemma wf_factory_queueState (F : factory) parentName state :
  wf_factory F → wf_factory (queueState F parentName state).
Proof.
  intros [Hroot Hrt Hrec]. split; [exact Hroot | exact Hrt |].
  intros n r Hn. destruct (Hrec n r Hn) as [? ? ? ?]. by split.
Qed.

Lemma wf_factory_store (F : factory) name state r :
  wf_factory F → d_name state = Some name →
  JsString.has_char at_sign name = false →
  states F !! name = None →
  build F name state = Ok r →
  wf_factory (Factory (<[name := r]> (states F)) (queue F) (root F)).
Proof.
  intros [Hroot Hrt Hrec] _ Hat Hfresh Hbuild.
  split; [exact Hroot | |].
  - destruct Hrt as (rt & Hlk & Hrest). exists rt.
    split; [|exact Hrest]. by apply lookup_store_other.
  - intros n r0. simpl. rewrite lookup_insert. case_decide as Hn.
    2:{ intros Hlk. apply wf_record_store; [exact Hfresh | by apply Hrec]. }
    subst n. intros [= <-].
    apply build_Ok in Hbuild
      as (parent & data & url & params & views & own
          & Hparent & _ & _ & _ & _ & Hown & ->).
    assert (Hstored : ∀ p, parent = Some p →
              states F !! st_name p = Some p ∧ wf_record F (st_name p) p).
    { intros p ->. apply stateBuilder_parent_stored in Hparent as (k & Hk).
      pose proof (Hrec k p Hk) as Hwf. rewrite (wf_name _ _ _ Hwf). done. }
    split; simpl.
    + reflexivity.
    + exact Hat.
    + intros k. unfold stateBuilder_navigable. destruct url as [m|].
      * intros [= <-]. eexists. rewrite lookup_insert_eq. split; [reflexivity|].
        simpl. eauto.
      * destruct parent as [p|]; [|discriminate]. intros Hk.
        destruct (Hstored p eq_refl) as [_ Hwf].
        destruct (wf_navigable _ _ _ Hwf k Hk) as (rk & Hrk & Hurl).
        exists rk. split; [|exact Hurl]. by apply lookup_store_other.
    + destruct parent as [p|]; simpl.
      * destruct (Hstored p eq_refl) as [Hp _]. exists p.
        split; [by apply lookup_store_other|].
        split; [reflexivity|]. split; [reflexivity|].
        by apply (stateBuilder_ownParams_superset name p params own).
      * split; [reflexivity|]. unfold stateBuilder_includes.
        by rewrite insert_empty.
Qed.

Lemma stateFactory_wf (F : factory) : stateFactory = Some F → wf_factory F.
Proof.
  rewrite stateFactory_eq. intros [= <-]. split; simpl.
  - reflexivity.
  - eexists. rewrite lookup_singleton_eq. split; [reflexivity|]. simpl. auto.
  - intros n r Hlk. apply lookup_singleton_Some in Hlk as [<- <-].
    split; simpl; [reflexivity | reflexivity | discriminate | auto].
Qed.

Lemma registerState_wf fuel (F : factory) state F' res :
  wf_factory F → registerState fuel F state = Some (F', res) → wf_factory F'.
Proof.
  apply (registerState_preserves wf_factory).
  - intros. by apply wf_factory_queueState.
  - intros. by eapply wf_factory_store.
Qed.

Lemma reachable_wf (F : factory) : reachable F → wf_factory F.
Proof.
  induction 1 as [F HF | fuel F state F' res _ IH Hreg].
  - by apply stateFactory_wf.
  - by eapply registerState_wf.
Qed.

Lemma registerAll_reachable fuel (F : factory) l F' res :
  reachable F → registerAll fuel F l = Some (F', res) → reachable F'.
Proof.
  unfold registerAll. apply (drainQueue_preserves reachable).
  intros F0 c F1 res0 HF0 Hreg. by eapply reachable_register.
Qed.

(** What a stored result of [registerState] is. *)
Lemma registerState_Stored fuel (F : factory) state F' r :
  registerState fuel F state = Some (F', Ok (Stored r)) →
  ∃ name, d_name state = Some name ∧ build F name state = Ok r.
Proof.
  rewrite registerState_unfold. intros Hreg.
  destruct (d_name state) as [name|]; [|discriminate].
  destruct (JsString.has_char at_sign name); [discriminate|].
  case_bool_decide; [discriminate|]. cbv zeta in Hreg.
  destruct (_ && _); [discriminate|].
  destruct (build F name state) as [r0|e] eqn:Hbuild; [|discriminate].
  match type of Hreg with
  | context [drainQueue ?reg ?F1 ?l] =>
      destruct (drainQueue reg F1 l) as [[F2 [v|e]]|]; [|discriminate..]
  end.
  injection Hreg as _ <-. eauto.
Qed.

(** Claim C8.  The constructor returns, and the root it leaves has the
    empty name, is abstract, has no navigable state and an empty path,
    although it was declared with the absolute URL ["^"] and keeps the
    matcher compiled from it. *)
Theorem root_after_construction :
  ∃ (F : factory) rt,
    stateFactory = Some F
    ∧ root F = Some "" ∧ states F !! "" = Some rt ∧ deref_root F = Some rt
    ∧ st_name rt = "" ∧ st_abstract rt = Some true
    ∧ st_navigable rt = None ∧ st_path rt = []
    ∧ d_url (rootDecl : decl) = UrlStr "^" ∧ st_url rt = Some (compile "").
Proof.
  eexists. eexists. split; [apply stateFactory_eq|].
  unfold deref_root. simpl. rewrite lookup_singleton_eq. simpl.
  repeat split; reflexivity.
Qed.


(** Claim C10.  A declared URL that is a string not starting with [^],
    under a parent with no navigable state: the URL rule does not raise,
    it concatenates the string onto the matcher of the root, which is the
    one compiled at construction; the state stored for the declaration
    carries that matcher. *)
Theorem relative_url_under_root (F : factory) name state p s :
  reachable F →
  d_name state = Some name →
  stateBuilder_parent F name (d_parent state) = Ok (Some p) →
  st_navigable p = None →
  d_url state = UrlStr s → JsString.starts_with caret s = false →
  (∃ rt, deref_root F = Some rt ∧ st_url rt = Some (compile ""))
  ∧ stateBuilder_url F (Some p) (d_url state) = Ok (Some (concat (compile "") s))
  ∧ (∀ fuel F' r, registerState fuel F state = Some (F', Ok (Stored r)) →
       st_url r = Some (concat (compile "") s)).
Proof.
  intros HF Hname Hparent Hnav Hurl Hs.
  apply reachable_wf in HF. destruct HF as [Hroot (rt & Hrt & _ & Hrturl & _) _].
  assert (Hderef : deref_root F = Some rt) by (unfold deref_root; by rewrite Hroot).
  assert (Hrule : stateBuilder_url F (Some p) (d_url state)
                  = Ok (Some (concat (compile "") s))).
  { rewrite Hurl. unfold stateBuilder_url. rewrite Hs, Hnav. simpl.
    by rewrite Hderef, Hrturl. }
  split; [eauto|]. split; [exact Hrule|].
  intros fuel F' r Hreg.
  apply registerState_Stored in Hreg as (name' & Hname' & Hbuild).
  assert (name' = name) as -> by congruence.
  apply build_Ok in Hbuild
    as (parent & data & url & params & views & own & Hp & _ & Hu & _ & _ & _ & ->).
  simpl. congruence.
Qed.

(** *** Relative references *)

Lemma findState_walk_later (F : factory) name base segs i current :
  findState_walk F name base (S i) segs current
  = spec_climb F name base segs current.
Proof.
  revert i current. induction segs as [|seg rest IH]; intros i current; simpl.
  - reflexivity.
  - rewrite andb_false_r. destruct (String.eqb seg "^"); [|reflexivity].
    destruct (st_parent current) as [k|]; [|reflexivity].
    destruct (states F !! k); [apply IH | reflexivity].
Qed.

Lemma findState_walk_first (F : factory) name base segs :
  findState_walk F name base 0 segs base
  = spec_climb F name base (spec_start segs) base.
Proof.
  destruct segs as [|seg rest]; simpl; [reflexivity|].
  destruct (String.eqb seg "") eqn:Hseg; simpl.
  - apply findState_walk_later.
  - destruct (String.eqb seg "^"); [|reflexivity].
    destruct (st_parent base) as [k|]; [|reflexivity].
    destruct (states F !! k); [apply findState_walk_later | reflexivity].
Qed.

Lemma findState_relative (F : factory) name base :
  isRelative name = true →
  findState F name (Some base)
  = try n := spec_resolve F name base in Ok (states F !! n).
Proof.
  intros Hrel. unfold findState, spec_resolve. rewrite Hrel, findState_walk_first.
  destruct (spec_climb _ _ _ _ _) as [[current rest]|e]; simpl; [|reflexivity].
  unfold spec_join. destruct (_ && _); reflexivity.
Qed.


(** *** The keys of [includes] *)

Lemma rooted_includes (F : factory) :
  wf_factory F →
  ∀ n, rooted F n → ∀ r, states F !! n = Some r →
    includes_path_and_root r
    ∧ (∀ k, is_Some (st_includes r !! k) → st_includes r !! k = Some true)
    ∧ (n = "" ∨ n ∈ st_path r).
Proof.
  intros HF n Hrooted.
  induction Hrooted as [|n r0 p Hn Hparent _ IH]; intros r Hr.
  - destruct (wf_root_record _ HF) as (rt & Hrt & Hnone & _).
    assert (r = rt) as -> by congruence.
    pose proof (wf_records _ HF _ _ Hrt) as Hwf.
    pose proof (wf_parent _ _ _ Hwf) as Hp. rewrite Hnone in Hp.
    destruct Hp as [Hpath Hincl].
    split; [|split; [|by left]].
    + intros k. rewrite Hpath, Hincl, (wf_name _ _ _ Hwf), elem_of_nil.
      rewrite lookup_singleton_is_Some. intuition congruence.
    + intros k. rewrite Hincl, lookup_singleton_is_Some. intros <-.
      apply lookup_singleton_eq.
  - assert (r = r0) as -> by congruence.
    pose proof (wf_records _ HF _ _ Hn) as Hwf.
    pose proof (wf_parent _ _ _ Hwf) as Hp. rewrite Hparent in Hp.
    destruct Hp as (rp & Hrp & Hpath & Hincl & _).
    destruct (IH rp Hrp) as (Hkeys & Htrue & Hown).
    pose proof (wf_name _ _ _ (wf_records _ HF _ _ Hrp)) as Hpname.
    split; [|split].
    + intros k. rewrite Hpath, Hincl, (wf_name _ _ _ Hwf).
      rewrite lookup_insert_is_Some', (Hkeys k), elem_of_app, list_elem_of_singleton.
      rewrite Hpname. split.
      * intros [-> | [? | [-> | ->]]]; auto. destruct Hown as [->|?]; auto.
      * intros [[? | ->] | [-> | ->]]; auto.
    + intros k. rewrite Hincl, lookup_insert. case_decide; [done|]. apply Htrue.
    + right. rewrite Hpath, elem_of_app, list_elem_of_singleton. auto.
Qed.

(** The names on the path of a stored state and its own name are keys
    of its [includes]. *)
Lemma path_in_includes (F : factory) :
  wf_factory F →
  ∀ len n r, List.length (st_path r) = len → states F !! n = Some r →
    ∀ k, k ∈ st_path r ∨ k = n → st_includes r !! k = Some true.
Proof.
  intros HF len. induction len as [|len IH]; intros n r Hlen Hr k Hk;
    pose proof (wf_records _ HF _ _ Hr) as Hwf;
    pose proof (wf_parent _ _ _ Hwf) as Hp;
    destruct (st_parent r) as [p|].
  - destruct Hp as (rp & _ & Hpath & _). rewrite Hpath, length_app in Hlen.
    simpl in Hlen. lia.
  - destruct Hp as [Hpath Hincl]. rewrite Hpath in Hk. rewrite Hincl.
    destruct Hk as [Hk | ->]; [by apply elem_of_nil in Hk|].
    apply lookup_singleton_eq.
  - destruct Hp as (rp & Hrp & Hpath & Hincl & _).
    rewrite Hincl, lookup_insert. case_decide as Hn; [done|].
    pose proof (wf_name _ _ _ (wf_records _ HF _ _ Hrp)) as Hpname.
    apply (IH p rp); [|done|].
    + rewrite Hpath, length_app in Hlen. simpl in Hlen. lia.
    + rewrite Hpath in Hk. destruct Hk as [Hk|Hk]; [|congruence].
      apply elem_of_app in Hk as [Hk|Hk]; [by left|].
      apply list_elem_of_singleton in Hk. congruence.
  - destruct Hp as [Hpath _]. rewrite Hpath in Hlen. discriminate.
Qed.


(** Under a parent [stateBuilder.views] does not raise. *)
Lemma stateBuilder_views_parent (p : record) declared :
  ∃ v, stateBuilder_views (Some p) declared = Ok v.
Proof.
  unfold stateBuilder_views. generalize (∅ : gmap string view).
  generalize (match declared with
              | ViewsUndefined => [("", ViewSelf)]
              | ViewsNull => []
              | ViewsMap l => map (fun kv => (fst kv, ViewCfg (snd kv))) l
              end).
  intros slots. induction slots as [|slot slots IH]; intros acc; simpl; [eauto|].
  destruct (JsString.has_char at_sign (fst slot)); apply IH.
Qed.


(** The references of a stored state of a reachable factory resolve. *)
Lemma reachable_refs (F : factory) n r k :
  reachable F → states F !! n = Some r →
  st_parent r = Some k ∨ st_navigable r = Some k →
  is_Some (states F !! k).
Proof.
  intros HF Hr Hk. apply reachable_wf in HF.
  pose proof (wf_records _ HF _ _ Hr) as Hwf. destruct Hk as [Hk|Hk].
  - pose proof (wf_parent _ _ _ Hwf) as Hp. rewrite Hk in Hp.
    destruct Hp as (rp & Hrp & _). eauto.
  - destruct (wf_navigable _ _ _ Hwf k Hk) as (rk & Hrk & _). eauto.
Qed.

End RegistryFacts.

(** ** Orders of registration *)

Section OrderFacts.
Context {matcher : Type} `{UrlMatcherFactory matcher}.
Local Abbreviation decl := (decl matcher).
Local Abbreviation record := (record matcher).
Local Abbreviation factory := (factory matcher).

Lemma stores_now_registered (F : factory) pn :
  is_Some (states F !! pn) → stores_now F pn = true.
Proof.
  intros [r Hr]. unfold stores_now. rewrite bool_decide_eq_false_2 by congruence.
  by rewrite andb_false_r.
Qed.

Lemma stores_now_spec (F : factory) pn :
  stores_now F pn = true ↔ pn = "" ∨ is_Some (states F !! pn).
Proof.
  unfold stores_now. split.
  - intros Hg. destruct pn as [|a pn]; [by left|]. right. simpl in Hg.
    case_bool_decide as Hn; [discriminate|].
    destruct (states F !! String a pn); [eauto | done].
  - intros [->|Hs]; [reflexivity | by apply stores_now_registered].
Qed.

(** [findState] by absolute name sees the same state in a larger
    registry. *)
Lemma findState_stable (F F' : factory) k :
  states F ⊆ states F' → is_Some (states F !! k) →
  findState F k None = findState F' k None.
Proof.
  intros Hsub [r Hr]. rewrite !findState_no_base.
  destruct (isRelative k); [reflexivity|].
  by rewrite Hr, (lookup_weaken _ _ _ _ Hr Hsub).
Qed.

Lemma compositeName_prefix name c dp :
  compositeName name = Some c → parentName_of name dp = c ∧ JsString.truthy c = true.
Proof.
  unfold compositeName, parentName_of.
  destruct (JsString.before_last dot name) as [p|]; [|discriminate].
  destruct (JsString.truthy p) eqn:Hp; simpl; [|discriminate].
  destruct (_ && _); [|discriminate]. by intros [= <-].
Qed.

(** [build] gives the same state in a larger registry, once the
    declaration is not queued. *)
Lemma build_stable (F F' : factory) n d :
  wf_factory F → states F ⊆ states F' → root F' = root F →
  d_name d = Some n → waits_for_declared_parent d = true →
  stores_now F (parentName_of n (d_parent d)) = true →
  build F' n d = build F n d.
Proof.
  intros HF Hsub Hroot Hname Hwaits Hnow.
  apply stores_now_spec in Hnow.
  destruct (wf_root_record _ HF) as (rt & Hrt & _).
  assert (Hderef : deref_root F' = deref_root F).
  { unfold deref_root. rewrite Hroot, (wf_root _ HF).
    by rewrite Hrt, (lookup_weaken _ _ _ _ Hrt Hsub). }
  assert (Hcomp : match compositeName n with
                  | Some c => findState F' c None
                  | None => Ok (deref_root F')
                  end
                  = match compositeName n with
                    | Some c => findState F c None
                    | None => Ok (deref_root F)
                    end).
  { destruct (compositeName n) as [c|] eqn:Hc; [|by rewrite Hderef].
    apply (compositeName_prefix n c (d_parent d)) in Hc as [Hpn Htr].
    symmetry. apply findState_stable; [exact Hsub|].
    rewrite Hpn in Hnow. destruct Hnow as [->|?]; [discriminate | done]. }
  assert (Hparent : stateBuilder_parent F' n (d_parent d)
                    = stateBuilder_parent F n (d_parent d)).
  { unfold stateBuilder_parent. destruct (d_parent d) as [p|] eqn:Hp; [|exact Hcomp].
    destruct (JsString.truthy p) eqn:Htr; [|exact Hcomp].
    unfold waits_for_declared_parent in Hwaits. rewrite Hname, Hp, Htr in Hwaits.
    simpl in Hwaits. apply String.eqb_eq in Hwaits. rewrite Hwaits in Hnow.
    symmetry. apply findState_stable; [exact Hsub|].
    destruct Hnow as [->|?]; [discriminate | done]. }
  unfold build. rewrite Hparent.
  destruct (stateBuilder_parent F n (d_parent d)) as [parent|e] eqn:Hp; [|reflexivity].
  cbn [bind]. destruct (stateBuilder_data parent (d_data d)) as [data|e]; [|reflexivity].
  cbn [bind].
  assert (Hurl : stateBuilder_url F' parent (d_url d) = stateBuilder_url F parent (d_url d)).
  { unfold stateBuilder_url. destruct (d_url d) as [|s|m|v]; try reflexivity.
    destruct (JsString.starts_with caret s); [reflexivity|].
    destruct parent as [p|]; [|reflexivity].
    rewrite Hderef. destruct (st_navigable p) as [k|] eqn:Hk; [|reflexivity].
    apply stateBuilder_parent_stored in Hp as (kp & Hkp).
    destruct (wf_navigable _ _ _ (wf_records _ HF _ _ Hkp) k Hk) as (rk & Hrk & _).
    by rewrite Hrk, (lookup_weaken _ _ _ _ Hrk Hsub). }
  by rewrite Hurl.
Qed.


(** *** A call of [registerState] that returns *)

Lemma registerState_Ok_inv fuel (F : factory) d F' v :
  registerState fuel F d = Some (F', Ok v) →
  ∃ n, d_name d = Some n ∧ JsString.has_char at_sign n = false
       ∧ states F !! n = None
       ∧ ((stores_now F (parentName_of n (d_parent d)) = false
           ∧ F' = queueState F (parentName_of n (d_parent d)) d ∧ v = Deferred)
          ∨ (stores_now F (parentName_of n (d_parent d)) = true
             ∧ ∃ r, build F n d = Ok r ∧ v = Stored r
                    ∧ drainQueue (reg_of fuel)
                        (Factory (<[n := r]> (states F)) (queue F) (root F))
                        (default [] (queue F !! n))
                      = Some (F', Ok tt))).
Proof.
  rewrite registerState_unfold. intros Hreg.
  destruct (d_name d) as [n|]; [|discriminate]. exists n.
  destruct (JsString.has_char at_sign n); [discriminate|].
  case_bool_decide as Hdup; [discriminate|].
  assert (Hfresh : states F !! n = None)
    by (destruct (states F !! n); [exfalso; apply Hdup; eauto | done]).
  do 3 (split; [done|]). cbv zeta in Hreg. unfold stores_now.
  destruct (_ && _); simpl.
  - left. injection Hreg as <- <-. done.
  - right. split; [done|].
    destruct (build F n d) as [r|e]; [|discriminate]. exists r.
    change (match fuel with O => fun _ _ => None | S n => registerState n end)
      with (reg_of fuel) in Hreg.
    simpl in Hreg.
    destruct (drainQueue _ _ _) as [[F2 [[]|e]]|]; [|discriminate..].
    by injection Hreg as <- <-.
Qed.

Lemma registerState_open fuel (F : factory) d n r :
  d_name d = Some n → JsString.has_char at_sign n = false →
  states F !! n = None →
  stores_now F (parentName_of n (d_parent d)) = true →
  build F n d = Ok r →
  registerState fuel F d
  = match drainQueue (reg_of fuel)
            (Factory (<[n := r]> (states F)) (queue F) (root F))
            (default [] (queue F !! n)) with
    | Some (F2, Ok _) => Some (F2, Ok (Stored r))
    | Some (F2, Throw e) => Some (F2, Throw e)
    | None => None
    end.
Proof.
  intros Hname Hat Hfresh Hnow Hbuild.
  rewrite registerState_unfold, Hname, Hat.
  rewrite bool_decide_eq_false_2 by (rewrite Hfresh; by intros [? ?]).
  cbv zeta. unfold stores_now in Hnow. apply negb_true_iff in Hnow.
  rewrite Hnow, Hbuild. reflexivity.
Qed.

(** *** What a call registers *)

Lemma registers_only_frame (F F' : factory) n x :
  registers_only F F' n → states F !! x = None → x ≠ n → not_waiting F x →
  states F' !! x = None.
Proof.
  intros Honly Hx Hne Hnw. destruct (states F' !! x) as [r|] eqn:Hr; [|done].
  destruct (Honly x) as [[? ?]|[->|(k & ds & e & Hk & He & Hname & Hku & _)]];
    [eauto | congruence | done |].
  by destruct (Hnw k ds e Hk Hku He).
Qed.

End OrderFacts.

Section Drain.
Context {matcher : Type} `{UrlMatcherFactory matcher}.
Local Abbreviation decl := (decl matcher).
Local Abbreviation record := (record matcher).
Local Abbreviation factory := (factory matcher).

Variable L : list decl.
Variable FM : factory.

Hypothesis L_built :
  ∀ d, d ∈ L →
    ∃ n r, d_name d = Some n ∧ JsString.has_char at_sign n = false
           ∧ states FM !! n = Some r ∧ build FM n d = Ok r
           ∧ waits_for_declared_parent d = true.
Hypothesis L_inj :
  ∀ d d' n, d ∈ L → d' ∈ L → d_name d = Some n → d_name d' = Some n → d = d'.
Hypothesis FM_root : root FM = Some "".

Lemma queued_unique (F : factory) k k' ds ds' e e' m :
  queue_ok L F → queue F !! k = Some ds → queue F !! k' = Some ds' →
  e ∈ ds → e' ∈ ds' → d_name e = Some m → d_name e' = Some m →
  e = e' ∧ k = k'.
Proof.
  intros Hq Hk Hk' He He' Hm Hm'.
  destruct (Hq k ds Hk) as [_ Hds]. destruct (Hq k' ds' Hk') as [_ Hds'].
  destruct (Hds e He) as (HeL & n & Hn & Hpn).
  destruct (Hds' e' He') as (HeL' & n' & Hn' & Hpn').
  assert (e = e') as <- by eauto. split; [done|]. congruence.
Qed.

Lemma waiting_unregistered_later (F F' : factory) n :
  queue_ok L F → waiting_unregistered F → registers_only F F' n →
  queue F' = queue F → states F ⊆ states F' → not_waiting F n →
  waiting_unregistered F'.
Proof.
  intros Hq HU Honly Hqueue Hsub Hn k ds e m Hk Hku He Hm.
  rewrite Hqueue in Hk.
  assert (HkF : states F !! k = None).
  { destruct (states F !! k) as [r|] eqn:Hr; [|done].
    by rewrite (lookup_weaken _ _ _ _ Hr Hsub) in Hku. }
  destruct (states F' !! m) as [r|] eqn:Hr; [|done].
  destruct (Honly m) as [[r0 Hr0]|[->|(k' & ds' & e' & Hk' & He' & Hm' & _ & [rk Hrk])]];
    [eauto | | |].
  - by rewrite (HU k ds e m Hk HkF He Hm) in Hr0.
  - by destruct (Hn k ds e Hk HkF He).
  - destruct (queued_unique F k k' ds ds' e e' m) as [_ <-]; try done. congruence.
Qed.

Lemma registers_only_trans (F Fi Fj : factory) n m ds c :
  registers_only F Fi n → registers_only Fi Fj m →
  queue Fi = queue F → states F ⊆ states Fi → states Fi ⊆ states Fj →
  states F !! n = None → is_Some (states Fi !! n) →
  queue F !! n = Some ds → c ∈ ds → d_name c = Some m → is_Some (states Fj !! m) →
  registers_only F Fj n.
Proof.
  intros HFi HFj Hqueue Hsub Hsub' Hn [rn Hrn] Hds Hc Hm Hmj x Hx.
  assert (Hnj : is_Some (states Fj !! n)) by (exists rn; eapply lookup_weaken; eauto).
  destruct (HFj x Hx) as [Hxi|[->|(k & ds' & e & Hk & He & Hname & Hku & Hkj)]].
  - destruct (HFi x Hxi) as [?|[?|(k & ds' & e & Hk & He & Hname & Hku & [rk Hrk])]];
      [by left | by right; left |].
    right; right. exists k, ds', e. repeat split; try done.
    exists rk. eapply lookup_weaken; eauto.
  - right; right. exists n, ds, c. repeat split; done.
  - right; right. exists k, ds', e. rewrite Hqueue in Hk. repeat split; try done.
    destruct (states F !! k) as [r|] eqn:Hr; [|done].
    by rewrite (lookup_weaken _ _ _ _ Hr Hsub) in Hku.
Qed.


Lemma open_not_waiting (F : factory) d n :
  wf_factory F → queue_ok L F → d ∈ L → d_name d = Some n →
  states F !! n = None →
  stores_now F (parentName_of n (d_parent d)) = true →
  not_waiting F n.
Proof.
  intros HF Hq HdL Hname Hfresh Hnow k ds e Hk Hku He Hn.
  destruct (Hq k ds Hk) as [_ Hds]. destruct (Hds e He) as (HeL & n0 & Hn0 & Hpn).
  assert (e = d) as -> by eauto. assert (n0 = n) as -> by congruence.
  rewrite Hpn in Hnow. apply stores_now_spec in Hnow as [->|[? ?]]; [|congruence].
  destruct (wf_root_record _ HF) as (rt & Hrt & _). congruence.
Qed.

Lemma drained_except_mono (X Y : string → Prop) (F : factory) :
  (∀ x, X x → Y x) → drained_except X F → drained_except Y F.
Proof.
  intros HXY Hdr k ds d n Hk Hreg Hd Hn.
  destruct (Hdr k ds d n Hk Hreg Hd Hn); auto.
Qed.

Lemma not_waiting_later (F F' : factory) x :
  queue F' = queue F → states F ⊆ states F' → not_waiting F x → not_waiting F' x.
Proof.
  intros Hqueue Hsub Hnw k ds e Hk Hku He. rewrite Hqueue in Hk.
  apply (Hnw k ds e Hk); [|done].
  destruct (states F !! k) as [r|] eqn:Hr; [|done].
  by rewrite (lookup_weaken _ _ _ _ Hr Hsub) in Hku.
Qed.

Lemma unregistered_shrinks (F F' : factory) n b :
  n ∈ names_of L → states F !! n = None → is_Some (states F' !! n) →
  states F ⊆ states F' →
  (size (names_of L ∖ dom (states F)) ≤ S b)%nat →
  (size (names_of L ∖ dom (states F')) ≤ b)%nat.
Proof.
  intros HnL HnF HnF' Hsub Hsize.
  assert (Hdom : dom (states F) ⊆ dom (states F')) by by apply subseteq_dom.
  assert (Hin : n ∈ names_of L ∖ dom (states F)).
  { apply elem_of_difference. split; [done|]. by apply not_elem_of_dom. }
  assert (Hn' : n ∈ dom (states F')) by by apply elem_of_dom.
  assert (Hsubset : names_of L ∖ dom (states F')
                    ⊆ (names_of L ∖ dom (states F)) ∖ {[ n ]}).
  { intros x Hx. apply elem_of_difference in Hx as [HxL Hx'].
    apply elem_of_difference. split.
    - apply elem_of_difference. split; [done|]. intros Hc. by apply Hx', Hdom.
    - intros Hs. apply elem_of_singleton in Hs as ->. done. }
  apply subseteq_size in Hsubset.
  rewrite (size_difference (names_of L ∖ dom (states F)) {[ n ]}) in Hsubset
    by by apply singleton_subseteq_l.
  rewrite size_singleton in Hsubset. lia.
Qed.

(** The loop of [registerState] over the declarations that waited for
    [n], in a factory [Fi] reached from [F] by storing [n] and draining
    the declarations before [rest]. *)
Lemma drain_loop reg b n (X : string → Prop) (F : factory) :
  stores_spec L FM reg b →
  queue_ok L F → waiting_unregistered F → states F !! n = None → not_waiting F n →
  (∀ x, X x → states F !! x = None ∧ x ≠ n ∧ not_waiting F x) →
  n ∈ names_of L → (size (names_of L ∖ dom (states F)) ≤ S b)%nat →
  ∀ rest (Fi : factory),
    (∀ c, c ∈ rest → ∃ ds, queue F !! n = Some ds ∧ c ∈ ds) → NoDup rest →
    wf_factory Fi → states Fi ⊆ states FM → states F ⊆ states Fi →
    is_Some (states Fi !! n) → queue Fi = queue F →
    (∀ c m, c ∈ rest → d_name c = Some m → states Fi !! m = None) →
    registers_only F Fi n →
    drained_except (fun x => X x ∨ named_in rest x) Fi →
    ∃ F', drainQueue reg Fi rest = Some (F', Ok tt)
          ∧ wf_factory F' ∧ states F' ⊆ states FM ∧ states Fi ⊆ states F'
          ∧ queue F' = queue F ∧ registers_only F F' n ∧ drained_except X F'.
Proof.
  intros Hspec Hq HU Hn Hnw HX HnL Hsize rest.
  induction rest as [|c rest IH];
    intros Fi Hin Hnodup HFi HsubM Hsub Hreg Hqueue Hrest Honly Hdr.
  - exists Fi. simpl. do 6 (split; [done|]).
    eapply drained_except_mono; [|exact Hdr].
    intros x [?|(c & Hc & _)]; [done | by apply elem_of_nil in Hc].
  - apply NoDup_cons in Hnodup as [Hc_rest Hnodup].
    destruct (Hin c) as (ds & Hds & Hc); [by left|].
    destruct (Hq n ds Hds) as [_ Hds_ok].
    destruct (Hds_ok c Hc) as (HcL & m & Hm & Hpn).
    assert (HqFi : queue_ok L Fi) by (unfold queue_ok; by rewrite Hqueue).
    assert (Hrest_ne : ∀ x, named_in rest x → x ≠ m).
    { intros x (c' & Hc' & Hx) ->.
      assert (c' ∈ L) by (destruct (Hin c') as (ds' & Hds' & Hin');
                            [by right | by destruct (Hq n ds' Hds') as [_ Hok];
                                           destruct (Hok c' Hin')]).
      by assert (c' = c) as -> by eauto. }
    assert (Hrest_nw : ∀ x, named_in rest x → not_waiting Fi x).
    { intros x (c' & Hc' & Hx) k ds' e Hk Hku He Hname.
      destruct (Hin c') as (ds0 & Hds0 & Hin0); [by right|].
      rewrite <- Hqueue in Hds0.
      destruct (queued_unique Fi k n ds' ds0 e c' x) as [_ ->]; try done.
      destruct Hreg as [? Hreg]. congruence. }
    assert (HUFi : waiting_unregistered Fi)
      by exact (waiting_unregistered_later F Fi n Hq HU Honly Hqueue Hsub Hnw).
    assert (Hm_fresh : states Fi !! m = None) by (apply (Hrest c m); [by left | done]).
    assert (Hnow : stores_now Fi (parentName_of m (d_parent c)) = true)
      by (rewrite Hpn; by apply stores_now_registered).
    assert (Hdr_c : drained_except (fun x => (X x ∨ named_in rest x) ∨ x = m) Fi).
    { eapply drained_except_mono; [|exact Hdr].
      intros x [?|(c' & Hc' & Hx)]; [by left; left|].
      apply elem_of_cons in Hc' as [->|Hc']; [right; congruence|].
      left; right. by exists c'. }
    assert (Hframe : ∀ x, X x ∨ named_in rest x →
              states Fi !! x = None ∧ x ≠ m ∧ not_waiting Fi x).
    { intros x [Hx|Hx].
      - destruct (HX x Hx) as (HxF & Hxn & Hxw). split; [|split].
        + by apply (registers_only_frame F Fi n).
        + intros ->. by destruct (Hxw n ds c Hds Hn Hc).
        + by apply (not_waiting_later F Fi).
      - split; [|split].
        + destruct Hx as (c' & Hc' & Hx). apply (Hrest c' x); [by right | done].
        + by apply Hrest_ne.
        + by apply Hrest_nw. }
    assert (Hsize_i : (size (names_of L ∖ dom (states Fi)) ≤ b)%nat)
      by by apply (unregistered_shrinks F Fi n).
    destruct (Hspec Fi c m (fun x => X x ∨ named_in rest x)
                HFi HsubM HqFi HUFi HcL Hm Hm_fresh Hnow Hdr_c Hframe Hsize_i)
      as (F'' & r & Hcall & HF'' & HsubM'' & Hsub'' & Hqueue'' & Hm'' & Honly'' & Hdr'').
    assert (Hin' : ∀ c', c' ∈ rest → ∃ ds, queue F !! n = Some ds ∧ c' ∈ ds)
      by (intros c' Hc'; apply Hin; by right).
    assert (HsubF'' : states F ⊆ states F'') by by etrans.
    assert (Hreg'' : is_Some (states F'' !! n))
      by (destruct Hreg as [rn Hrn]; exists rn; eapply lookup_weaken; eauto).
    assert (Hqueue_F'' : queue F'' = queue F) by congruence.
    assert (Hrest'' : ∀ c' m', c' ∈ rest → d_name c' = Some m' → states F'' !! m' = None).
    { intros c' m' Hc' Hm'.
      assert (Hnamed : named_in rest m') by by exists c'.
      apply (registers_only_frame Fi F'' m); auto.
      apply (Hrest c' m'); [by right | done]. }
    assert (Honly_F'' : registers_only F F'' n)
      by by apply (registers_only_trans F Fi F'' n m ds c).
    destruct (IH F'' Hin' Hnodup HF'' HsubM'' HsubF'' Hreg'' Hqueue_F'' Hrest''
                Honly_F'' Hdr'')
      as (F' & Hloop & HF' & HsubM' & Hsub' & Hqueue' & Honly' & Hdr').
    exists F'. simpl. rewrite Hcall. do 3 (split; [done|]).
    split; [by etrans|]. done.
Qed.

(** One level of the recursion: if the recursive call meets
    [stores_spec], so does [registerState]. *)
Lemma registerState_meets_spec fuel :
  stores_spec L FM (reg_of fuel) fuel →
  stores_spec L FM (registerState fuel) (S fuel).
Proof.
  intros Hspec F d n X HF HsubM Hq HU HdL Hname Hfresh Hnow Hdr HX Hsize.
  destruct (L_built d HdL) as (n' & r & Hname' & Hat & HrM & Hbuild & Hwaits).
  assert (n' = n) as -> by congruence.
  rewrite (build_stable F FM n d) in Hbuild; try done;
    [|by rewrite FM_root, (wf_root _ HF)].
  assert (Hnw : not_waiting F n) by by apply (open_not_waiting F d n).
  assert (HnL : n ∈ names_of L).
  { apply elem_of_list_to_set, list_elem_of_omap. eauto. }
  set (F1 := Factory (<[n := r]> (states F)) (queue F) (root F)).
  assert (Hin : ∀ c, c ∈ default [] (queue F !! n) →
            ∃ ds, queue F !! n = Some ds ∧ c ∈ ds).
  { intros c Hc. destruct (queue F !! n) as [ds|]; [eauto | by apply elem_of_nil in Hc]. }
  assert (Hnodup : NoDup (default [] (queue F !! n))).
  { destruct (queue F !! n) as [ds|] eqn:Hds; [by destruct (Hq n ds Hds) | constructor]. }
  assert (HF1 : wf_factory F1) by by eapply wf_factory_store.
  assert (HsubM1 : states F1 ⊆ states FM) by (simpl; by apply insert_subseteq_l).
  assert (Hsub1 : states F ⊆ states F1) by (simpl; by apply insert_subseteq).
  assert (Hreg1 : is_Some (states F1 !! n)) by (simpl; rewrite lookup_insert_eq; eauto).
  assert (Hrest1 : ∀ c m, c ∈ default [] (queue F !! n) → d_name c = Some m →
            states F1 !! m = None).
  { intros c m Hc Hm. simpl.
    destruct (queue F !! n) as [ds|] eqn:Hds; [|by apply elem_of_nil in Hc].
    rewrite lookup_insert_ne; [by apply (HU n ds c m)|].
    intros Heq. rewrite <- Heq in Hm. by destruct (Hnw n ds c Hds Hfresh Hc). }
  assert (Honly1 : registers_only F F1 n).
  { intros m. simpl. rewrite lookup_insert. case_decide; [by right; left | by left]. }
  assert (Hdr1 : drained_except
                   (fun x => X x ∨ named_in (default [] (queue F !! n)) x) F1).
  { intros k ds e x Hk Hreg He Hx. simpl in *.
    destruct (decide (k = n)) as [->|Hkn].
    - right; right. exists e. rewrite Hk. done.
    - rewrite lookup_insert_ne in Hreg by done.
      destruct (Hdr k ds e x Hk Hreg He Hx) as [[rx Hrx] | [? | ->]].
      + left. exists rx. by apply lookup_store_other.
      + by right; left.
      + left. rewrite lookup_insert_eq. eauto. }
  destruct (drain_loop (reg_of fuel) fuel n X F Hspec Hq HU Hfresh Hnw HX HnL Hsize
              (default [] (queue F !! n)) F1 Hin Hnodup HF1 HsubM1 Hsub1 Hreg1
              eq_refl Hrest1 Honly1 Hdr1)
    as (F' & Hloop & HF' & HsubM' & Hsub' & Hqueue' & Honly' & Hdr').
  exists F', r. rewrite (registerState_open fuel F d n r) by done.
  fold F1. rewrite Hloop. do 3 (split; [done|]).
  split; [by etrans|]. split; [done|]. split; [|done].
  destruct Hreg1 as [r1 Hr1]. exists r1. eapply lookup_weaken; eauto.
Qed.

Lemma reg_of_meets_spec fuel : stores_spec L FM (reg_of fuel) fuel.
Proof.
  induction fuel as [|fuel IH].
  - intros F d n X _ _ _ _ HdL Hname Hfresh _ _ _ Hsize. exfalso.
    assert (Hin : n ∈ names_of L ∖ dom (states F)).
    { apply elem_of_difference. split; [|by apply not_elem_of_dom].
      apply elem_of_list_to_set, list_elem_of_omap. eauto. }
    assert (Hempty : names_of L ∖ dom (states F) ≡ ∅)
      by (apply size_empty_inv; lia).
    rewrite Hempty in Hin. by apply not_elem_of_empty in Hin.
  - by apply registerState_meets_spec.
Qed.

Lemma registerState_stores fuel : stores_spec L FM (registerState fuel) (S fuel).
Proof. apply registerState_meets_spec, reg_of_meets_spec. Qed.


(** *** A run in any order *)

Lemma size_names_of (l : list decl) : (size (names_of l) ≤ List.length l)%nat.
Proof.
  unfold names_of. induction l as [|d l IH].
  - change (size (∅ : gset string) ≤ 0)%nat. by rewrite size_empty.
  - change (omap d_name (d :: l))
      with (match d_name d with
            | Some n => n :: omap d_name l
            | None => omap d_name l
            end).
    destruct (d_name d) as [n|]; [|simpl; lia].
    rewrite list_to_set_cons, size_union_alt, size_singleton.
    assert (size (list_to_set (omap d_name l) ∖ {[ n ]} : gset string)
            ≤ size (list_to_set (omap d_name l) : gset string))%nat.
    { apply subseteq_size. intros x Hx. by apply elem_of_difference in Hx as [? _]. }
    simpl. lia.
Qed.

Lemma unregistered_bound (F : factory) fuel :
  (List.length L ≤ S fuel)%nat → (size (names_of L ∖ dom (states F)) ≤ S fuel)%nat.
Proof.
  intros Hlen. pose proof (size_names_of L) as Hsize.
  assert (size (names_of L ∖ dom (states F)) ≤ size (names_of L))%nat.
  { apply subseteq_size. intros x Hx. by apply elem_of_difference in Hx as [? _]. }
  lia.
Qed.

Lemma queue_queueState (F : factory) pn d k :
  queue (queueState F pn d) !! k
  = if decide (pn = k) then Some (default [] (queue F !! pn) ++ [d])%list
    else queue F !! k.
Proof. unfold queueState. simpl. apply lookup_insert. Qed.

(** One more declaration of [L], not seen before. *)
Lemma run_step fuel (F0 : factory) seen (F : factory) d n :
  run_inv L seen F0 FM F → d ∈ L → d_name d = Some n →
  ¬ named_in seen n → states F0 !! n = None → (List.length L ≤ S fuel)%nat →
  ∃ F' v, registerState fuel F d = Some (F', Ok v) ∧ run_inv L (d :: seen) F0 FM F'.
Proof.
  intros [HF Hbelow Habove Hq Hqueued HU Hdr Hdom Hseen] HdL Hname Hnew Hn0 Hlen.
  destruct (L_built d HdL) as (n' & r & Hname' & Hat & HrM & Hbuild & Hwaits).
  assert (n' = n) as -> by congruence.
  assert (Hfresh : states F !! n = None).
  { destruct (states F !! n) as [x|] eqn:Hx; [|done].
    destruct (Hdom n) as [[? ?]|?]; [eauto | congruence | done]. }
  destruct (stores_now F (parentName_of n (d_parent d))) eqn:Hnow.
  - assert (Hnw : not_waiting F n) by by apply (open_not_waiting F d n).
    destruct (registerState_stores fuel F d n (fun _ => False))
      as (F' & r' & Hcall & HF' & Hbelow' & Hsub' & Hqueue' & Hreg' & Honly' & Hdr');
      try done.
    + eapply drained_except_mono; [|exact Hdr]. by intros x [].
    + by apply unregistered_bound.
    + exists F', (Stored r'). split; [done|]. split; try done.
      * by etrans.
      * unfold queue_ok. by rewrite Hqueue'.
      * intros k ds e Hk He. rewrite Hqueue' in Hk. apply elem_of_cons. right. eauto.
      * by apply (waiting_unregistered_later F F' n).
      * intros m Hm.
        destruct (Honly' m Hm) as [Hm'|[->|(k & ds & e & Hk & He & Hme & _)]].
        -- destruct (Hdom m Hm') as [?|(c & Hc & Hcn)]; [by left|].
           right. exists c. split; [by apply elem_of_cons; right | done].
        -- right. exists d. split; [by apply elem_of_cons; left | done].
        -- right. exists e. split; [apply elem_of_cons; right; eauto | done].
      * intros d' m Hd' Hm. apply elem_of_cons in Hd' as [->|Hd'].
        -- left. congruence.
        -- destruct (Hseen d' m Hd' Hm) as [[x Hx]|(ds & Hds & Hin)].
           ++ left. exists x. eapply lookup_weaken; eauto.
           ++ right. exists ds. by rewrite Hqueue'.
  - set (pn := parentName_of n (d_parent d)) in *.
    assert (Hpn : states F !! pn = None).
    { destruct (states F !! pn) as [x|] eqn:Hx; [|done].
      rewrite stores_now_registered in Hnow; [discriminate | eauto]. }
    assert (Hcall : registerState fuel F d = Some (queueState F pn d, Ok Deferred)).
    { rewrite registerState_unfold, Hname, Hat.
      rewrite bool_decide_eq_false_2 by (rewrite Hfresh; by intros [? ?]).
      cbv zeta. fold pn. unfold stores_now in Hnow. apply negb_false_iff in Hnow.
      by rewrite Hnow. }
    assert (Hd_new : ∀ ds, queue F !! pn = Some ds → d ∉ ds).
    { intros ds Hds Hin. apply Hnew. exists d. eauto. }
    exists (queueState F pn d), Deferred. split; [done|]. split; try done.
    + by apply wf_factory_queueState.
    + intros k ds. rewrite queue_queueState. case_decide as Hk.
      * subst k. intros [= <-]. split.
        -- destruct (queue F !! pn) as [ds0|] eqn:Hds0; simpl.
           ++ apply NoDup_app. split; [by destruct (Hq pn ds0 Hds0)|].
              split; [|apply NoDup_singleton].
              intros x Hx Hx'. apply list_elem_of_singleton in Hx' as ->.
              by apply (Hd_new ds0).
           ++ apply NoDup_singleton.
        -- intros e He. apply elem_of_app in He as [He|He].
           ++ destruct (queue F !! pn) as [ds0|] eqn:Hds0; simpl in He;
                [|by apply elem_of_nil in He].
              destruct (Hq pn ds0 Hds0) as [_ Hok]. by apply Hok.
           ++ apply list_elem_of_singleton in He as ->. split; [done|]. by exists n.
      * apply Hq.
    + intros k ds e. rewrite queue_queueState. case_decide as Hk.
      * subst k. intros [= <-] He. apply elem_of_cons.
        apply elem_of_app in He as [He|He].
        -- right. destruct (queue F !! pn) as [ds0|] eqn:Hds0; simpl in He;
             [eauto | by apply elem_of_nil in He].
        -- left. by apply list_elem_of_singleton in He.
      * intros Hk' He. apply elem_of_cons. right. eauto.
    + intros k ds e m. rewrite queue_queueState. case_decide as Hk.
      * subst k. intros [= <-] _ He Hm. apply elem_of_app in He as [He|He].
        -- destruct (queue F !! pn) as [ds0|] eqn:Hds0; simpl in He;
             [|by apply elem_of_nil in He].
           by apply (HU pn ds0 e m).
        -- apply list_elem_of_singleton in He as ->.
           assert (m = n) as -> by congruence. exact Hfresh.
      * apply HU.
    + intros k ds e m. rewrite queue_queueState. case_decide as Hk.
      * subst k. intros _ [x Hx]. simpl in Hx. congruence.
      * apply Hdr.
    + intros m Hm. destruct (Hdom m Hm) as [?|(c & Hc & Hcn)]; [by left|].
      right. exists c. split; [by apply elem_of_cons; right | done].
    + intros d' m Hd' Hm. apply elem_of_cons in Hd' as [->|Hd'].
      * right. assert (m = n) as -> by congruence. fold pn.
        rewrite queue_queueState, decide_True by done. eexists. split; [reflexivity|].
        apply elem_of_app. right. by apply list_elem_of_singleton.
      * destruct (Hseen d' m Hd' Hm) as [?|(ds & Hds & Hin)]; [by left|].
        right. rewrite queue_queueState. case_decide as Hk.
        -- eexists. split; [reflexivity|]. rewrite Hk, Hds. simpl.
           apply elem_of_app. by left.
        -- eauto.
Qed.

(** A run over declarations of [L] with distinct names, none seen
    before. *)
Lemma run_all fuel (F0 : factory) (l : list decl) :
  (List.length L ≤ S fuel)%nat →
  ∀ seen (F : factory),
    run_inv L seen F0 FM F →
    (∀ d, d ∈ l → d ∈ L) → NoDup l →
    (∀ d n, d ∈ l → d_name d = Some n → ¬ named_in seen n ∧ states F0 !! n = None) →
    ∃ F2, registerAll fuel F l = Some (F2, Ok tt)
          ∧ run_inv L (rev l ++ seen)%list F0 FM F2.
Proof.
  intros Hlen. induction l as [|d l IH]; intros seen F Hinv HlL Hnodup Hnew.
  - exists F. split; [reflexivity | exact Hinv].
  - apply NoDup_cons in Hnodup as [Hd_l Hnodup].
    assert (HdL : d ∈ L) by (apply HlL; by left).
    destruct (L_built d HdL) as (n & r & Hname & _).
    destruct (Hnew d n) as [Hn_S Hn_0]; [by left | done |].
    destruct (run_step fuel F0 seen F d n Hinv HdL Hname Hn_S Hn_0 Hlen)
      as (F' & v & Hcall & Hinv').
    destruct (IH (d :: seen) F' Hinv') as (F2 & Hrun & Hinv2).
    + intros d' Hd'. apply HlL. by right.
    + done.
    + intros d' m Hd' Hm. destruct (Hnew d' m) as [Hm_S Hm_0]; [by right | done |].
      split; [|done]. intros (c & Hc & Hcm). apply elem_of_cons in Hc as [->|Hc].
      * assert (d' = d) as -> by (apply (L_inj d' d m); auto; apply HlL; by right).
        done.
      * apply Hm_S. by exists c.
    + exists F2. unfold registerAll in *. simpl. rewrite Hcall. split; [done|].
      simpl. by rewrite <- app_assoc.
Qed.

(** At the end of a run that has seen the declarations of a parent-first
    list [l], each of them is registered. *)
Lemma run_registers_all (F0 : factory) seen (F : factory) (l : list decl) :
  run_inv L seen F0 FM F →
  ∀ known : gset string,
    parent_first known l = true →
    (∀ k, k ∈ known → is_Some (states F !! k)) →
    (∀ d, d ∈ l → d ∈ seen) →
    ∀ d n, d ∈ l → d_name d = Some n → is_Some (states F !! n).
Proof.
  intros [HF _ _ Hq _ _ Hdr _ Hseen].
  induction l as [|c l IH]; intros known Hpf Hknown HlS d n Hd Hn.
  - by apply elem_of_nil in Hd.
  - simpl in Hpf. destruct (d_name c) as [m|] eqn:Hm; [|discriminate].
    apply andb_true_iff in Hpf as [Hnow Hpf].
    assert (Hc : is_Some (states F !! m)).
    { assert (HcS : c ∈ seen) by (apply HlS; by left).
      destruct (Hseen c m HcS Hm) as [?|(ds & Hds & Hin)]; [done|].
      destruct (Hdr _ ds c m Hds) as [?|[]]; try done.
      apply orb_true_iff in Hnow as [Hg|Hg].
      - destruct (parentName_of m (d_parent c)); [|discriminate].
        destruct (wf_root_record _ HF) as (rt & Hrt & _). eauto.
      - apply bool_decide_eq_true in Hg. by apply Hknown. }
    apply elem_of_cons in Hd as [->|Hd].
    + assert (n = m) as -> by congruence. done.
    + apply (IH ({[ m ]} ∪ known) Hpf) with (d := d); [| |exact Hd|exact Hn].
      * intros k Hk. apply elem_of_union in Hk as [Hk|Hk]; [|by apply Hknown].
        by apply elem_of_singleton in Hk as ->.
      * intros d' Hd'. apply HlS. by right.
Qed.

End Drain.

Section ParentFirst.
Context {matcher : Type} `{UrlMatcherFactory matcher}.
Local Abbreviation decl := (decl matcher).
Local Abbreviation record := (record matcher).
Local Abbreviation factory := (factory matcher).

Lemma names_of_cons (d : decl) n l :
  d_name d = Some n → names_of (d :: l) = {[ n ]} ∪ names_of l.
Proof. intros Hn. unfold names_of. simpl. by rewrite Hn. Qed.

(** Registering in a parent-first order, starting with nothing queued:
    every declaration is stored at once, and [build] makes the same state
    of it in the final registry. *)
Lemma parent_first_run fuel (l : list decl) :
  ∀ (F F1 : factory),
    wf_factory F → queue F = ∅ →
    parent_first (dom (states F)) l = true →
    Forall (fun d => waits_for_declared_parent d = true) l →
    registerAll fuel F l = Some (F1, Ok tt) →
    wf_factory F1 ∧ root F1 = root F ∧ states F ⊆ states F1
    ∧ (∀ d, d ∈ l →
         ∃ n r, d_name d = Some n ∧ JsString.has_char at_sign n = false
                ∧ states F !! n = None ∧ states F1 !! n = Some r
                ∧ build F1 n d = Ok r)
    ∧ (∀ d d' n, d ∈ l → d' ∈ l → d_name d = Some n → d_name d' = Some n → d = d')
    ∧ NoDup l
    ∧ dom (states F1) = names_of l ∪ dom (states F).
Proof.
  induction l as [|d l IH]; intros F F1 HF Hqueue Hpf Hwaits Hrun.
  - injection Hrun as <-. split; [done|]. split; [done|]. split; [done|].
    split; [intros d Hd; by apply elem_of_nil in Hd|].
    split; [intros d d' n Hd; by apply elem_of_nil in Hd|].
    split; [constructor|].
    unfold names_of. simpl. by rewrite (left_id_L ∅ (∪)).
  - unfold registerAll in Hrun. simpl in Hrun.
    destruct (registerState fuel F d) as [[F' [v|e]]|] eqn:Hreg; [|discriminate..].
    apply registerState_Ok_inv in Hreg as (n & Hn & Hat & Hfresh & Hcase).
    simpl in Hpf. rewrite Hn in Hpf. apply andb_true_iff in Hpf as [Hnow Hpf].
    assert (Hopen : stores_now F (parentName_of n (d_parent d)) = true).
    { apply stores_now_spec. apply orb_true_iff in Hnow as [Hg|Hg].
      - left. by destruct (parentName_of n (d_parent d)).
      - right. apply bool_decide_eq_true in Hg. by apply elem_of_dom. }
    destruct Hcase as [(Hclosed & _)|(_ & r & Hbuild & _ & Hdrain)]; [congruence|].
    rewrite Hqueue, lookup_empty in Hdrain. simpl in Hdrain. injection Hdrain as <-.
    apply Forall_cons in Hwaits as [Hwait Hwaits].
    set (F' := Factory (<[n := r]> (states F)) ∅ (root F)) in *.
    assert (HF' : wf_factory F').
    { pose proof (wf_factory_store F n d r HF Hn Hat Hfresh Hbuild) as Hwf.
      by rewrite Hqueue in Hwf. }
    assert (Hdom : dom (states F') = {[ n ]} ∪ dom (states F))
      by (simpl; apply dom_insert_L).
    rewrite <- Hdom in Hpf.
    destruct (IH F' F1 HF' eq_refl Hpf Hwaits Hrun)
      as (HF1 & Hroot & Hsub & Hbuilt & Hinj & Hnodup & Hdom1).
    assert (Hsub0 : states F ⊆ states F') by (simpl; by apply insert_subseteq).
    assert (HsubF : states F ⊆ states F1) by by etrans.
    split; [done|]. split; [exact Hroot|]. split; [done|].
    assert (Hn1 : states F1 !! n = Some r).
    { apply (lookup_weaken (states F') _ _ _); [|done]. simpl. apply lookup_insert_eq. }
    assert (Hhead : ∀ d', d' ∈ l → d_name d' ≠ Some n).
    { intros d' Hd' Hn'.
      destruct (Hbuilt d' Hd') as (n0 & r0 & Hn0 & _ & Hfresh0 & _).
      assert (n0 = n) as -> by congruence. simpl in Hfresh0.
      by rewrite lookup_insert_eq in Hfresh0. }
    split; [|split; [|split]].
    + intros d0 Hd0. apply elem_of_cons in Hd0 as [->|Hd0].
      * exists n, r. do 4 (split; [done|]).
        rewrite (build_stable F F1 n d); done.
      * destruct (Hbuilt d0 Hd0) as (n0 & r0 & Hn0 & Hat0 & Hfresh0 & Hr0 & Hb0).
        exists n0, r0. do 2 (split; [done|]). split; [|done].
        destruct (states F !! n0) as [x|] eqn:Hx; [|done].
        by rewrite (lookup_weaken _ _ _ _ Hx Hsub0) in Hfresh0.
    + intros d1 d2 m Hd1 Hd2 Hm1 Hm2.
      apply elem_of_cons in Hd1 as [->|Hd1]; apply elem_of_cons in Hd2 as [->|Hd2].
      * done.
      * destruct (Hhead d2 Hd2). congruence.
      * destruct (Hhead d1 Hd1). congruence.
      * by apply (Hinj d1 d2 m).
    + apply NoDup_cons. split; [|done]. intros Hd. by destruct (Hhead d Hd).
    + rewrite Hdom1, Hdom, (names_of_cons d n l Hn).
      apply set_eq. intros x. rewrite !elem_of_union. tauto.
Qed.



End ParentFirst.

(** ** Further properties of the code *)

(** *** What a call keeps *)

Section KeepFacts.
Context {matcher : Type} `{UrlMatcherFactory matcher}.
Local Abbreviation decl := (decl matcher).
Local Abbreviation record := (record matcher).
Local Abbreviation factory := (factory matcher).

Lemma drainQueue_states_grow reg :
  (∀ (F : factory) c F' res, reg F c = Some (F', res) →
     states F ⊆ states F' ∧ root F' = root F) →
  ∀ l (F F' : factory) res, drainQueue reg F l = Some (F', res) →
    states F ⊆ states F' ∧ root F' = root F.
Proof.
  intros Hreg l F F' res Hd.
  apply (drainQueue_preserves (fun G => states F ⊆ states G ∧ root G = root F) reg)
    with (F := F) (l := l) (res := res); [|done|done].
  intros G c G' res' [Hsub Hroot] Hc. destruct (Hreg G c G' res' Hc) as [Hsub' Hroot'].
  split; [by etrans | congruence].
Qed.

Lemma registerState_grows fuel (F : factory) state F' res :
  registerState fuel F state = Some (F', res) →
  states F ⊆ states F' ∧ root F' = root F.
Proof.
  intros Hreg.
  apply (registerState_preserves (fun G => states F ⊆ states G ∧ root G = root F))
    with (fuel := fuel) (F := F) (state := state) (res := res); [| |done|done].
  - intros G pn d HG. exact HG.
  - intros G name d r [Hsub Hroot] _ _ Hfresh _. split; [|exact Hroot].
    etrans; [exact Hsub|]. simpl. by apply insert_subseteq.
Qed.

Lemma reg_of_grows fuel (F : factory) c F' res :
  reg_of fuel F c = Some (F', res) → states F ⊆ states F' ∧ root F' = root F.
Proof. destruct fuel as [|fuel]; [discriminate | apply registerState_grows]. Qed.


(** Property X2.  The queue is never cleared: after a call every list
    of the queue starts with the declarations it held before the call,
    in the same order.  The declarations that a call takes from the
    queue and registers stay queued. *)
Theorem registerState_keeps_queue fuel (F : factory) state F' res :
  registerState fuel F state = Some (F', res) →
  ∀ k ds, queue F !! k = Some ds → ∃ ds', queue F' !! k = Some (ds ++ ds')%list.
Proof.
  apply (registerState_preserves
           (fun G => ∀ k ds, queue F !! k = Some ds →
                             ∃ ds', queue G !! k = Some (ds ++ ds')%list)).
  - intros G pn d HG k ds Hk. destruct (HG k ds Hk) as (ds' & Hds').
    rewrite queue_queueState. case_decide as Hpn.
    + subst pn. rewrite Hds'. simpl. exists (ds' ++ [d])%list.
      by rewrite app_assoc.
    + eauto.
  - intros G name d r HG _ _ _ _. exact HG.
  - intros k ds Hk. exists []. by rewrite app_nil_r.
Qed.

End KeepFacts.

(** *** The queue *)

Section QueueFacts.
Context {matcher : Type} `{UrlMatcherFactory matcher}.
Local Abbreviation decl := (decl matcher).
Local Abbreviation record := (record matcher).
Local Abbreviation factory := (factory matcher).

(** [registerState_preserves], with what is known of the declaration
    when it is queued. *)
Lemma registerState_preserves_named (P : factory → Prop) :
  (∀ F name state,
      P F → d_name state = Some name →
      JsString.has_char at_sign name = false →
      stores_now F (parentName_of name (d_parent state)) = false →
      P (queueState F (parentName_of name (d_parent state)) state)) →
  (∀ F name state r,
      P F → d_name state = Some name →
      JsString.has_char at_sign name = false →
      states F !! name = None →
      build F name state = Ok r →
      P (Factory (<[name := r]> (states F)) (queue F) (root F))) →
  ∀ fuel F state F' res,
    P F → registerState fuel F state = Some (F', res) → P F'.
Proof.
  intros Hqueue Hstore fuel.
  induction fuel as [|n IH]; intros F state F' res HP Hreg.
  all: rewrite registerState_unfold in Hreg.
  all: destruct (d_name state) as [name|] eqn:Hname; [|by injection Hreg as <- _].
  all: destruct (JsString.has_char at_sign name) eqn:Hat; [by injection Hreg as <- _|].
  all: case_bool_decide as Hdup; [by injection Hreg as <- _|].
  all: cbv zeta in Hreg.
  all: destruct (stores_now F (parentName_of name (d_parent state))) eqn:Hnow;
    unfold stores_now in Hnow;
    [apply negb_true_iff in Hnow | apply negb_false_iff in Hnow];
    rewrite Hnow in Hreg;
    [|injection Hreg as <- _; apply Hqueue; try done;
      unfold stores_now; by rewrite Hnow].
  all: destruct (build F name state) as [r|e] eqn:Hbuild; [|by injection Hreg as <- _].
  all: assert (Hfresh : states F !! name = None)
         by (destruct (states F !! name) eqn:E; [exfalso; apply Hdup; eauto | done]).
  all: pose proof (Hstore F name state r HP Hname Hat Hfresh Hbuild) as HP1.
  all: match type of Hreg with
       | context [drainQueue ?reg ?F1 ?l] =>
           destruct (drainQueue reg F1 l) as [[F2 [v|e]]|] eqn:Hdrain; [| |discriminate];
           injection Hreg as <- _;
           (eapply (drainQueue_preserves P reg); [|exact HP1|exact Hdrain])
       end.
  all: intros F0 c F'' res0 HP0 Hr.
  all: first [discriminate Hr | exact (IH _ _ _ _ HP0 Hr)].
Qed.

Lemma stores_now_false (F : factory) pn :
  stores_now F pn = false → JsString.truthy pn = true ∧ states F !! pn = None.
Proof.
  unfold stores_now. intros Hn. apply negb_false_iff, andb_true_iff in Hn as [Ht Hb].
  split; [done|]. by apply bool_decide_eq_true in Hb.
Qed.

Lemma registerState_queue_wf fuel (F : factory) state F' res :
  queue_wf F → registerState fuel F state = Some (F', res) → queue_wf F'.
Proof.
  apply (registerState_preserves_named queue_wf).
  - intros G name d HG Hname Hat Hnow k ds e.
    apply stores_now_false in Hnow as [Htr _].
    rewrite queue_queueState. case_decide as Hk; [|apply HG].
    subst k. intros [= <-] He. apply elem_of_app in He as [He|He].
    + destruct (queue G !! parentName_of name (d_parent d)) as [ds0|] eqn:Hds0;
        simpl in He; [by apply (HG _ ds0) | by apply elem_of_nil in He].
    + apply list_elem_of_singleton in He as ->. split; [done|]. by exists name.
  - intros G name d r HG _ _ _ _. exact HG.
Qed.

Lemma stateFactory_queue (F : factory) : stateFactory = Some F → queue F = ∅.
Proof. rewrite stateFactory_eq. by intros [= <-]. Qed.

Lemma reachable_queue_wf (F : factory) : reachable F → queue_wf F.
Proof.
  induction 1 as [F HF | fuel F state F' res _ IH Hreg].
  - intros k ds e. by rewrite (stateFactory_queue F HF), lookup_empty.
  - by eapply registerState_queue_wf.
Qed.

(** *** What a call that stores leaves *)

(** The calls of the loop over the declarations that waited for a
    registered name [n], when the loop ends without an exception: each
    declaration is registered at the end. *)
Lemma drainQueue_registers fuel n :
  ∀ (l : list decl) (F F' : factory),
    is_Some (states F !! n) →
    (∀ e, e ∈ l → ∃ m, d_name e = Some m ∧ parentName_of m (d_parent e) = n) →
    drainQueue (reg_of fuel) F l = Some (F', Ok tt) →
    states F ⊆ states F'
    ∧ ∀ e m, e ∈ l → d_name e = Some m → is_Some (states F' !! m).
Proof.
  induction l as [|c l IH]; intros F F' Hn Hl Hd.
  - injection Hd as <-. split; [done|]. intros e m He. by apply elem_of_nil in He.
  - simpl in Hd. destruct (reg_of fuel F c) as [[F1 [v|e]]|] eqn:Hc; [|discriminate..].
    destruct (reg_of_grows fuel F c F1 _ Hc) as [Hsub1 _].
    assert (Hn1 : is_Some (states F1 !! n))
      by (destruct Hn as [rn Hrn]; exists rn; by apply (lookup_weaken _ _ _ _ Hrn)).
    destruct (IH F1 F' Hn1) as [Hsub' Hrest]; [|done|].
    { intros e He. apply Hl. by right. }
    split; [by etrans|]. intros e m He Hm.
    apply elem_of_cons in He as [->|He]; [|by apply (Hrest e m)].
    destruct fuel as [|fuel]; [discriminate|]. simpl in Hc.
    apply registerState_Ok_inv in Hc as (m' & Hm' & _ & _ & Hcase).
    assert (m' = m) as -> by congruence.
    destruct (Hl c) as (m0 & Hm0 & Hpn); [by left|].
    assert (m0 = m) as -> by congruence. rewrite Hpn in Hcase.
    rewrite (stores_now_registered F n Hn) in Hcase.
    destruct Hcase as [(? & _)|(_ & r & _ & _ & Hdrain)]; [discriminate|].
    assert (Hin : is_Some (states F1 !! m)).
    { destruct (drainQueue_states_grow (reg_of fuel) (reg_of_grows fuel)
                  (default [] (queue F !! m))
                  (Factory (<[m := r]> (states F)) (queue F) (root F))
                  F1 (Ok tt) Hdrain) as [Hs _].
      exists r. apply (lookup_weaken _ _ _ _ (lookup_insert_eq _ m r) Hs). }
    destruct Hin as [x Hx]. exists x. by apply (lookup_weaken _ _ _ _ Hx).
Qed.


Lemma drainQueue_preserves_in (P : factory → Prop) reg (l : list decl) :
  (∀ F c F' res, c ∈ l → P F → reg F c = Some (F', res) → P F') →
  ∀ F F' res, P F → drainQueue reg F l = Some (F', res) → P F'.
Proof.
  induction l as [|c l IH]; intros Hreg F F' res HP Hd; simpl in Hd.
  - by injection Hd as <- _.
  - destruct (reg F c) as [[F1 [v|e]]|] eqn:Hc; [| |discriminate].
    + eapply IH; [| |exact Hd].
      * intros G c' G' res' Hc'. apply Hreg. by right.
      * eapply Hreg; [by left | exact HP | exact Hc].
    + injection Hd as <- _. eapply Hreg; [by left | exact HP | exact Hc].
Qed.

(** The ways a call of [registerState] returns: with an exception of its
    own, the factory untouched; the declaration queued; the declaration
    stored and the queue under its name drained. *)
Lemma registerState_cases fuel (F : factory) d F' res :
  registerState fuel F d = Some (F', res) →
  (F' = F
   ∧ ((res = Throw InvalidName
       ∧ ∀ n, d_name d = Some n → JsString.has_char at_sign n = true)
      ∨ (∃ n, d_name d = Some n ∧ is_Some (states F !! n)
              ∧ res = Throw (DuplicateState n))
      ∨ (∃ n e, d_name d = Some n ∧ JsString.has_char at_sign n = false
                ∧ states F !! n = None
                ∧ stores_now F (parentName_of n (d_parent d)) = true
                ∧ build F n d = Throw e ∧ res = Throw e)))
  ∨ (∃ n, d_name d = Some n ∧ JsString.has_char at_sign n = false
          ∧ states F !! n = None
          ∧ stores_now F (parentName_of n (d_parent d)) = false
          ∧ F' = queueState F (parentName_of n (d_parent d)) d
          ∧ res = Ok Deferred)
  ∨ (∃ n r res', d_name d = Some n ∧ JsString.has_char at_sign n = false
          ∧ states F !! n = None
          ∧ stores_now F (parentName_of n (d_parent d)) = true
          ∧ build F n d = Ok r
          ∧ drainQueue (reg_of fuel)
              (Factory (<[n := r]> (states F)) (queue F) (root F))
              (default [] (queue F !! n)) = Some (F', res')
          ∧ res = match res' with
                  | Ok _ => Ok (Stored r)
                  | Throw e => Throw e
                  end).
Proof.
  rewrite registerState_unfold. intros Hreg.
  destruct (d_name d) as [n|];
    [|injection Hreg as <- <-; left; split; [done|]; left; split; [done|];
      intros ? [=]].
  destruct (JsString.has_char at_sign n) eqn:Hat.
  { injection Hreg as <- <-. left. split; [done|]. left. split; [done|].
    by intros ? [= <-]. }
  case_bool_decide as Hdup.
  { injection Hreg as <- <-. left. split; [done|]. right; left. eauto. }
  assert (Hfresh : states F !! n = None)
    by (destruct (states F !! n); [exfalso; apply Hdup; eauto | done]).
  cbv zeta in Hreg.
  destruct (stores_now F (parentName_of n (d_parent d))) eqn:Hnow;
    pose proof Hnow as Hnow'; unfold stores_now in Hnow';
    [apply negb_true_iff in Hnow' | apply negb_false_iff in Hnow'];
    rewrite Hnow' in Hreg; cycle 1.
  - right; left. injection Hreg as <- <-. exists n. repeat (split; [done|]). done.
  - destruct (build F n d) as [r|e] eqn:Hbuild.
    2:{ injection Hreg as <- <-. left. split; [done|]. right; right.
        exists n, e. repeat (split; [done|]). done. }
    right; right.
    change (match fuel with O => fun _ _ => None | S n => registerState n end)
      with (reg_of fuel) in Hreg.
    simpl in Hreg.
    destruct (drainQueue _ _ _) as [[F2 res']|] eqn:Hdrain; [|discriminate].
    exists n, r, res'. do 5 (split; [done|]).
    destruct res'; injection Hreg as <- <-; done.
Qed.

(** A call that does not queue its declaration leaves the queue as it
    is: the declarations it drains are not queued again. *)
Lemma registerState_storing_keeps_queue fuel :
  ∀ (F : factory) d F' res n,
    queue_wf F → d_name d = Some n →
    stores_now F (parentName_of n (d_parent d)) = true →
    registerState fuel F d = Some (F', res) → queue F' = queue F.
Proof.
  induction fuel as [|fuel IH]; intros F d F' res n Hq Hname Hnow Hreg.
  all: apply registerState_cases in Hreg
    as [[-> _]|[(n' & Hn' & _ & _ & Hnow' & _)
               |(n' & r & res' & Hn' & _ & _ & _ & _ & Hdrain & _)]];
    [done | congruence | assert (n' = n) as -> by congruence].
  all: cut (queue F' = queue F ∧ is_Some (states F' !! n)); [by intros [? _]|].
  all: revert Hdrain;
    apply (drainQueue_preserves_in
             (fun G => queue G = queue F ∧ is_Some (states G !! n)));
    [|split; [reflexivity | simpl; rewrite lookup_insert_eq; eauto]].
  all: intros G c G' resc Hc [HqG HnG] Hcall; try discriminate Hcall.
  simpl in Hcall.
  destruct (queue F !! n) as [ds|] eqn:Hds; [|by apply elem_of_nil in Hc].
  simpl in Hc.
  destruct (Hq n ds c Hds Hc) as (_ & m & Hm & _ & Hpn).
  assert (HqwG : queue_wf G) by (unfold queue_wf; by rewrite HqG).
  assert (HnowG : stores_now G (parentName_of m (d_parent c)) = true)
    by (rewrite Hpn; by apply stores_now_registered).
  split; [rewrite <- HqG; exact (IH G c G' resc m HqwG Hm HnowG Hcall)|].
  destruct HnG as [rn Hrn]; exists rn.
  destruct (registerState_grows fuel G c G' resc Hcall) as [Hsub _].
  by apply (lookup_weaken _ _ _ _ Hrn).
Qed.


End QueueFacts.

(** *** Termination *)

Section Termination.
Context {matcher : Type} `{UrlMatcherFactory matcher}.
Local Abbreviation decl := (decl matcher).
Local Abbreviation record := (record matcher).
Local Abbreviation factory := (factory matcher).

Lemma queued_names_elem (F : factory) k ds e x :
  queue F !! k = Some ds → e ∈ ds → d_name e = Some x → x ∈ queued_names F.
Proof.
  intros Hk He Hx. unfold queued_names. apply elem_of_union_list.
  exists (names_of ds). split.
  - apply list_elem_of_fmap. exists (k, ds). split; [done|].
    by apply elem_of_map_to_list.
  - unfold names_of. apply elem_of_list_to_set, list_elem_of_omap. eauto.
Qed.

Lemma drainQueue_fuel reg reg' (l : list decl) :
  (∀ (F : factory) c out, reg F c = Some out → reg' F c = Some out) →
  ∀ F out, drainQueue reg F l = Some out → drainQueue reg' F l = Some out.
Proof.
  intros Hreg. induction l as [|c l IH]; intros F out Hd; simpl in *; [done|].
  destruct (reg F c) as [[F1 res]|] eqn:Hc; [|discriminate].
  rewrite (Hreg F c _ Hc). destruct res; [by apply IH | done].
Qed.

(** More fuel does not change what a call returns. *)
Lemma registerState_fuel fuel :
  ∀ fuel' (F : factory) d out, (fuel ≤ fuel')%nat →
    registerState fuel F d = Some out → registerState fuel' F d = Some out.
Proof.
  induction fuel as [|fuel IH]; intros fuel' F d out Hle.
  all: rewrite !registerState_unfold.
  all: destruct (d_name d) as [n|]; [|done].
  all: destruct (JsString.has_char at_sign n); [done|].
  all: case_bool_decide; [done|]; cbv zeta.
  all: destruct (_ && _); [done|].
  all: destruct (build F n d) as [r|e]; [|done].
  all: intros Hreg.
  all: match type of Hreg with
       | context [drainQueue ?reg ?F1 ?l] =>
           destruct (drainQueue reg F1 l) as [out1|] eqn:Hdrain; [|discriminate]
       end.
  all: match goal with
       | |- context [drainQueue ?reg' ?F1 ?l] =>
           rewrite (drainQueue_fuel _ reg' l) with (out := out1) (2 := Hdrain); [done|]
       end.
  - intros ? ? ? [=].
  - destruct fuel' as [|fuel']; [lia|]. intros G c o. apply IH. lia.
Qed.

(** A call returns when its fuel exceeds the number of names of [U],
    the declaration's apart, that are not registered; [U] holds the names
    of the queue. *)
Lemma registerState_returns fuel :
  ∀ (F : factory) d (U : gset string),
    queue_wf F →
    (∀ k ds e x, queue F !! k = Some ds → e ∈ ds → d_name e = Some x → x ∈ U) →
    (∀ n, d_name d = Some n → states F !! n = None →
       (size ((U ∖ dom (states F)) ∖ {[n]}) < fuel)%nat) →
    is_Some (registerState fuel F d).
Proof.
  induction fuel as [|fuel IH]; intros F d U Hq HU Hsize.
  all: destruct (d_name d) as [n|] eqn:Hname;
    [|rewrite registerState_unfold, Hname; eauto].
  all: destruct (JsString.has_char at_sign n) eqn:Hat;
    [rewrite registerState_unfold, Hname, Hat; eauto|].
  all: destruct (states F !! n) as [r0|] eqn:Hfresh;
    [rewrite registerState_unfold, Hname, Hat, bool_decide_eq_true_2; eauto|].
  all: specialize (Hsize n eq_refl Hfresh).
  1: lia.
  destruct (stores_now F (parentName_of n (d_parent d))) eqn:Hnow; cycle 1.
  { rewrite registerState_unfold, Hname, Hat.
    rewrite bool_decide_eq_false_2 by (rewrite Hfresh; by intros [? ?]).
    cbv zeta. unfold stores_now in Hnow. apply negb_false_iff in Hnow.
    rewrite Hnow. eauto. }
  destruct (build F n d) as [r|e] eqn:Hbuild; cycle 1.
  { rewrite registerState_unfold, Hname, Hat.
    rewrite bool_decide_eq_false_2 by (rewrite Hfresh; by intros [? ?]).
    cbv zeta. unfold stores_now in Hnow. apply negb_true_iff in Hnow.
    rewrite Hnow, Hbuild. eauto. }
  rewrite (registerState_open (S fuel) F d n r Hname Hat Hfresh Hnow Hbuild).
  set (F1 := Factory (<[n := r]> (states F)) (queue F) (root F)).
  assert (Hloop : ∀ l (G : factory),
             (∀ c, c ∈ l → c ∈ default [] (queue F !! n)) →
             queue G = queue F → states F1 ⊆ states G →
             is_Some (drainQueue (reg_of (S fuel)) G l)).
  { induction l as [|c l IHl]; intros G Hl HqG Hsub; simpl; [eauto|].
    assert (Hc : c ∈ default [] (queue F !! n)) by (apply Hl; by left).
    destruct (queue F !! n) as [ds|] eqn:Hds; [|by apply elem_of_nil in Hc].
    simpl in Hc. destruct (Hq n ds c Hds Hc) as (_ & m & Hm & _ & Hpn).
    assert (HrG : states G !! n = Some r)
      by (apply (lookup_weaken (states F1)); [apply lookup_insert_eq | done]).
    assert (HqwG : queue_wf G) by (unfold queue_wf; by rewrite HqG).
    assert (HUG : ∀ k ds e x, queue G !! k = Some ds → e ∈ ds →
                    d_name e = Some x → x ∈ U) by (rewrite HqG; exact HU).
    assert (Hdom : dom (states F) ∪ {[n]} ⊆ dom (states G)).
    { intros x Hx. apply elem_of_dom. apply elem_of_union in Hx as [Hx|Hx].
      - apply elem_of_dom in Hx as [rx Hrx]. exists rx.
        apply (lookup_weaken (states F1)); [|done]. simpl.
        rewrite lookup_insert_ne; [done|]. intros ->. congruence.
      - apply elem_of_singleton in Hx as ->. eauto. }
    destruct (IH G c U HqwG HUG) as [[G' res] Hcall].
    { intros m' Hm' Hfm. assert (m' = m) as -> by congruence.
      assert (HmG : m ∉ dom (states G)) by by apply not_elem_of_dom.
      assert (HmU : m ∈ U) by by eapply HU.
      assert (HnG : n ∈ dom (states G))
        by (apply Hdom, elem_of_union; right; by apply elem_of_singleton).
      assert (HmA : m ∈ (U ∖ dom (states F)) ∖ {[n]}).
      { apply elem_of_difference. split.
        - apply elem_of_difference. split; [done|].
          intros Hd. apply HmG, Hdom, elem_of_union. by left.
        - intros Hs. apply elem_of_singleton in Hs as ->. done. }
      assert (Hsub' : (U ∖ dom (states G)) ∖ {[m]}
                      ⊆ ((U ∖ dom (states F)) ∖ {[n]}) ∖ {[m]}).
      { intros x Hx. apply elem_of_difference in Hx as [Hx Hxm].
        apply elem_of_difference in Hx as [HxU HxG].
        apply elem_of_difference. split; [|done].
        apply elem_of_difference. split.
        - apply elem_of_difference. split; [done|].
          intros Hd. apply HxG, Hdom, elem_of_union. by left.
        - intros Hs. apply elem_of_singleton in Hs as ->. done. }
      apply subseteq_size in Hsub'.
      rewrite (size_difference ((U ∖ dom (states F)) ∖ {[n]}) {[m]}) in Hsub'
        by by apply singleton_subseteq_l.
      rewrite size_singleton in Hsub'.
      assert (Hpos : (size ((U ∖ dom (states F)) ∖ {[n]}) ≠ 0)%nat).
      { intros Hz. apply size_empty_iff in Hz.
        apply (not_elem_of_empty (C := gset string) m). by rewrite <- Hz. }
      lia. }
    rewrite Hcall. destruct res as [v|e]; [|eauto].
    apply IHl.
    - intros c' Hc'. apply Hl. by right.
    - rewrite <- HqG.
      apply (registerState_storing_keeps_queue fuel G c G' (Ok v) m); try done.
      rewrite Hpn. apply stores_now_registered. eauto.
    - etrans; [exact Hsub|].
      by destruct (registerState_grows fuel G c G' (Ok v) Hcall). }
  destruct (Hloop (default [] (queue F !! n)) F1) as [[F2 [v|e]] ->]; eauto.
Qed.

(** Fuel above the number of queued names that are not registered
    suffices in a reachable factory. *)
Lemma registerState_returns_bound (F : factory) d :
  reachable F →
  is_Some (registerState (S (size (queued_names F ∖ dom (states F)))) F d).
Proof.
  intros HF. apply (registerState_returns _ F d (queued_names F)).
  - by apply reachable_queue_wf.
  - apply queued_names_elem.
  - intros n _ _.
    assert (Hle : (size ((queued_names F ∖ dom (states F)) ∖ {[n]})
                   ≤ size (queued_names F ∖ dom (states F)))%nat).
    { apply subseteq_size. intros x Hx. by apply elem_of_difference in Hx as [? _]. }
    lia.
Qed.

(** Property X7.  [registerState] returns: in a factory built by the
    constructor and calls of [registerState], the calls through the queue
    end, at a depth bounded by the number of queued names that are not
    registered; with any fuel above that bound the call returns one and
    the same factory and result. *)
Theorem registerState_terminates (F : factory) d :
  reachable F →
  ∃ out, ∀ fuel, (size (queued_names F ∖ dom (states F)) < fuel)%nat →
    registerState fuel F d = Some out.
Proof.
  intros HF. destruct (registerState_returns_bound F d HF) as [out Hout].
  exists out. intros fuel Hfuel.
  apply (registerState_fuel (S (size (queued_names F ∖ dom (states F)))) fuel);
    [lia | exact Hout].
Qed.

End Termination.

(** *** The rules [ownParams] and [views] *)

Section RuleFacts.
Context {matcher : Type} `{UrlMatcherFactory matcher}.
Local Abbreviation decl := (decl matcher).
Local Abbreviation record := (record matcher).
Local Abbreviation factory := (factory matcher).

(** *** The keys of [paramNames] *)

Lemma obj_set_keys p v o :
  map fst (obj_set p v o)
  = if bool_decide (p ∈ map fst o) then map fst o else (map fst o ++ [p])%list.
Proof.
  induction o as [|[k w] o IH]; cbn [obj_set map fst].
  - rewrite bool_decide_eq_false_2; [done | apply not_elem_of_nil].
  - destruct (String.eqb k p) eqn:Hkp; cbn [obj_set map fst].
    + apply String.eqb_eq in Hkp as ->.
      rewrite bool_decide_eq_true_2; [done | by left].
    + apply String.eqb_neq in Hkp. rewrite IH.
      case_bool_decide as Hin.
      * rewrite bool_decide_eq_true_2; [done | by right].
      * rewrite bool_decide_eq_false_2; [done|].
        intros Hc. apply elem_of_cons in Hc as [->|Hc]; done.
Qed.

Lemma obj_set_NoDup p v o : NoDup (map fst o) → NoDup (map fst (obj_set p v o)).
Proof.
  intros Hnd. rewrite obj_set_keys. case_bool_decide as Hin; [done|].
  apply NoDup_app. split; [done|]. split; [|apply NoDup_singleton].
  intros x Hx Hx'. apply list_elem_of_singleton in Hx' as ->. done.
Qed.

Lemma mark_all_NoDup ps o :
  NoDup (map fst o) → NoDup (map fst (fold_left (fun o p => obj_set p true o) ps o)).
Proof.
  revert o. induction ps as [|p ps IH]; intros o Hnd; simpl; [done|].
  by apply IH, obj_set_NoDup.
Qed.

Lemma obj_get_true_key q o : obj_get q o = true → (q, true) ∈ o.
Proof.
  induction o as [|[k w] o IH]; simpl; [discriminate|].
  destruct (String.eqb k q) eqn:Hkq.
  - apply String.eqb_eq in Hkq as ->. intros ->. by left.
  - intros Hq. right. by apply IH.
Qed.

Lemma obj_get_of_elem q v o : NoDup (map fst o) → (q, v) ∈ o → obj_get q o = v.
Proof.
  induction o as [|[k w] o IH]; simpl; intros Hnd Hin.
  - by apply elem_of_nil in Hin.
  - apply NoDup_cons in Hnd as [Hk Hnd].
    apply elem_of_cons in Hin as [[= <- <-]|Hin].
    + by rewrite String.eqb_refl.
    + destruct (String.eqb k q) eqn:Hkq; [|by apply IH].
      apply String.eqb_eq in Hkq as ->. exfalso. apply Hk.
      apply list_elem_of_fmap. by exists (q, v).
Qed.

Lemma ownParams_check_NoDup name pps o o' :
  ownParams_check name pps o = Ok o' → NoDup pps.
Proof.
  revert o. induction pps as [|p pps IH]; intros o Hc; simpl in Hc.
  - apply NoDup_nil_2.
  - destruct (obj_get p o) eqn:Hp; simpl in Hc; [|discriminate].
    apply NoDup_cons. split; [|by eapply IH].
    intros Hin. pose proof (ownParams_check_Ok _ _ _ _ Hc p Hin) as Hget.
    rewrite obj_get_set, String.eqb_refl in Hget. discriminate.
Qed.

Lemma ownParams_check_get name pps o o' :
  ownParams_check name pps o = Ok o' →
  ∀ q, obj_get q o' = if bool_decide (q ∈ pps) then false else obj_get q o.
Proof.
  revert o. induction pps as [|p pps IH]; intros o Hc q; simpl in Hc.
  - injection Hc as <-. rewrite bool_decide_eq_false_2; [done | apply not_elem_of_nil].
  - destruct (obj_get p o) eqn:Hp; simpl in Hc; [|discriminate].
    rewrite (IH _ Hc q), obj_get_set.
    destruct (String.eqb p q) eqn:Hpq.
    + apply String.eqb_eq in Hpq as ->.
      rewrite (bool_decide_eq_true_2 (q ∈ q :: pps)) by by left.
      by case_bool_decide.
    + apply String.eqb_neq in Hpq.
      case_bool_decide as Hin.
      * rewrite bool_decide_eq_true_2; [done | by right].
      * rewrite bool_decide_eq_false_2; [done|].
        intros Hc'. apply elem_of_cons in Hc' as [->|Hc']; done.
Qed.

Lemma ownParams_check_keys name pps o o' :
  ownParams_check name pps o = Ok o' → map fst o' = map fst o.
Proof.
  revert o. induction pps as [|p pps IH]; intros o Hc; simpl in Hc.
  - by injection Hc as <-.
  - destruct (obj_get p o) eqn:Hp; simpl in Hc; [|discriminate].
    rewrite (IH _ Hc), obj_set_keys, bool_decide_eq_true_2; [done|].
    apply obj_get_true_key in Hp. apply list_elem_of_fmap. by exists (p, true).
Qed.

(** The own parameters that [stateBuilder.ownParams] returns under a
    parent. *)
Lemma stateBuilder_ownParams_mem name (p : record) params own :
  stateBuilder_ownParams name (Some p) params = Ok own →
  ∀ q, q ∈ own ↔ q ∈ params ∧ q ∉ st_params p.
Proof.
  unfold stateBuilder_ownParams. intros Hown.
  apply bind_Ok in Hown as (checked & Hc & [= <-]).
  assert (Hnd : NoDup (map fst checked)).
  { rewrite (ownParams_check_keys _ _ _ _ Hc). apply mark_all_NoDup, NoDup_nil_2. }
  intros q. rewrite list_elem_of_fmap. split.
  - intros ([k v] & -> & Hin). apply list_elem_of_filter in Hin as [Hv Hin].
    simpl in Hv. subst v. simpl.
    apply (obj_get_of_elem _ _ _ Hnd) in Hin.
    rewrite (ownParams_check_get _ _ _ _ Hc) in Hin.
    case_bool_decide as Hpp; [discriminate|]. split; [|done].
    apply obj_get_mark_all in Hin as [Hin|Hin]; [done | discriminate].
  - intros [Hq Hnp]. exists (q, true). split; [done|].
    apply list_elem_of_filter. split; [done|]. apply obj_get_true_key.
    rewrite (ownParams_check_get _ _ _ _ Hc), bool_decide_eq_false_2 by done.
    apply obj_get_mark_all. by left.
Qed.

Lemma ownParams_check_succeeds name pps o :
  NoDup pps → (∀ q, q ∈ pps → obj_get q o = true) →
  ∃ o', ownParams_check name pps o = Ok o'.
Proof.
  revert o. induction pps as [|p pps IH]; intros o Hnd Hall; simpl; [eauto|].
  apply NoDup_cons in Hnd as [Hp Hnd].
  rewrite (Hall p) by by left. simpl. apply IH; [done|].
  intros q Hq. rewrite obj_get_set.
  destruct (String.eqb p q) eqn:Hpq.
  - apply String.eqb_eq in Hpq as ->. done.
  - apply Hall. by right.
Qed.



(** *** The slots of [views] *)

Lemma has_char_app c a b :
  JsString.has_char c (a ++ b) = JsString.has_char c a || JsString.has_char c b.
Proof.
  induction a as [|x a IH]; simpl; [done|].
  destruct (Ascii.eqb x c); [done | exact IH].
Qed.

Lemma views_step_Throw (parent : option record) slots e :
  fold_left (views_step parent) slots (Throw e) = Throw e.
Proof. induction slots as [|slot slots IH]; simpl; [done | exact IH]. Qed.

Lemma views_fold (parent : option record) slots :
  ∀ acc views,
    fold_left (views_step parent) slots (Ok acc) = Ok views →
    ∀ k, is_Some (views !! k) →
      is_Some (acc !! k)
      ∨ ∃ slot v, (slot, v) ∈ slots
          ∧ (JsString.has_char at_sign slot = true ∧ k = slot
             ∨ ∃ p, parent = Some p ∧ JsString.has_char at_sign slot = false
                    ∧ k = slot ++ "@" ++ st_name p).
Proof.
  induction slots as [|[slot v] slots IH]; intros acc views Hf k Hk; simpl in Hf.
  - injection Hf as <-. by left.
  - destruct (JsString.has_char at_sign slot) eqn:Hat.
    + destruct (IH _ _ Hf k Hk) as [Hacc|(slot' & v' & Hin & Hcase)].
      * destruct (decide (slot = k)) as [->|Hne].
        -- right. exists k, v. split; [by left | by left].
        -- left. by rewrite lookup_insert_ne in Hacc.
      * right. exists slot', v'. split; [by right | done].
    + destruct parent as [p|]; [|by rewrite views_step_Throw in Hf].
      destruct (IH _ _ Hf k Hk) as [Hacc|(slot' & v' & Hin & Hcase)].
      * destruct (decide (slot ++ "@" ++ st_name p = k)) as [<-|Hne].
        -- right. exists slot, v. split; [by left|]. right. eauto.
        -- left. by rewrite lookup_insert_ne in Hacc.
      * right. exists slot', v'. split; [by right | done].
Qed.


End RuleFacts.

(** *** What a call stores and what it raises *)

Section CallFacts.
Context {matcher : Type} `{UrlMatcherFactory matcher}.
Local Abbreviation decl := (decl matcher).
Local Abbreviation record := (record matcher).
Local Abbreviation factory := (factory matcher).

(** The parent that [stateBuilder.parent] finds in a well-formed factory
    is stored under its name. *)
Lemma stateBuilder_parent_named (F : factory) name declared p :
  wf_factory F → stateBuilder_parent F name declared = Ok (Some p) →
  states F !! st_name p = Some p.
Proof.
  intros HF Hp. apply stateBuilder_parent_stored in Hp as (k & Hk).
  by rewrite (wf_name _ _ _ (wf_records _ HF _ _ Hk)).
Qed.

(** The base onto which [stateBuilder.url] concatenates, under a stored
    parent: the navigable state of the parent, or the root. *)
Lemma url_base (F : factory) (p : record) :
  wf_factory F → states F !! st_name p = Some p →
  ∃ b m, states F !! default "" (st_navigable p) = Some b ∧ st_url b = Some m
         ∧ ∀ s, JsString.starts_with caret s = false →
             stateBuilder_url F (Some p) (UrlStr s) = Ok (Some (concat m s)).
Proof.
  intros HF Hp. pose proof (wf_records _ HF _ _ Hp) as Hwf.
  destruct (st_navigable p) as [nk|] eqn:Hnav.
  - destruct (wf_navigable _ _ _ Hwf nk Hnav) as (b & Hb & m & Hm).
    exists b, m. split; [done|]. split; [done|].
    intros s Hs. unfold stateBuilder_url. rewrite Hs, Hnav, Hb. simpl.
    by rewrite Hm.
  - destruct (wf_root_record _ HF) as (rt & Hrt & _ & Hurl & _).
    exists rt, (compile ""). split; [done|]. split; [done|].
    intros s Hs. unfold stateBuilder_url, deref_root.
    rewrite Hs, Hnav, (wf_root _ HF), Hrt. simpl. by rewrite Hurl.
Qed.


(** *** The exceptions of the rules *)

Lemma stateBuilder_parent_Throw (F : factory) name declared e :
  stateBuilder_parent F name declared = Throw e → ∃ x, e = NoReferencePoint x.
Proof.
  unfold stateBuilder_parent.
  assert (Hf : ∀ c, findState F c None = Throw e → ∃ x, e = NoReferencePoint x).
  { intros c. rewrite findState_no_base.
    destruct (isRelative c); [intros [= <-]; eauto | discriminate]. }
  destruct declared as [p|]; [destruct (JsString.truthy p); [apply Hf|]|].
  all: destruct (compositeName name); [apply Hf | discriminate].
Qed.

Lemma stateBuilder_data_Throw (parent : option record) own e :
  stateBuilder_data parent own = Throw e → e = TypeError "state.self.data".
Proof.
  unfold stateBuilder_data. destruct parent as [p|]; [|discriminate].
  destruct (st_data p); [|discriminate]. simpl. by intros [= <-].
Qed.

Lemma stateBuilder_url_Throw (F : factory) (parent : option record) url e :
  wf_factory F → (∀ p, parent = Some p → states F !! st_name p = Some p) →
  stateBuilder_url F parent url = Throw e →
  e = InvalidUrl ∨ (parent = None ∧ e = TypeError "state.parent.navigable").
Proof.
  intros HF Hp. destruct url as [|s|m|v]; simpl; try discriminate.
  - destruct (JsString.starts_with caret s) eqn:Hs; [discriminate|].
    destruct parent as [p|]; [|intros [= <-]; by right].
    destruct (url_base F p HF (Hp p eq_refl)) as (b & m & _ & _ & Hrule).
    specialize (Hrule s Hs). unfold stateBuilder_url in Hrule.
    rewrite Hs in Hrule. rewrite Hrule. discriminate.
  - intros [= <-]. by left.
Qed.

Lemma stateBuilder_params_Throw (parent : option record) url declared e :
  stateBuilder_params parent url declared = Throw e →
  e = ReferenceError "isArray" ∨ (parent = None ∧ e = TypeError "state.parent.params").
Proof.
  destruct declared; simpl; [|intros [= <-]; by left..].
  destruct url; [discriminate|]. destruct parent; [discriminate|].
  intros [= <-]. by right.
Qed.

Lemma stateBuilder_views_Throw (parent : option record) declared e :
  stateBuilder_views parent declared = Throw e →
  parent = None ∧ e = TypeError "state.parent.name".
Proof.
  destruct parent as [p|].
  { destruct (stateBuilder_views_parent p declared) as [v ->]. discriminate. }
  unfold stateBuilder_views. generalize (∅ : gmap string view).
  generalize (match declared with
              | ViewsUndefined => [("", ViewSelf)]
              | ViewsNull => []
              | ViewsMap l => map (fun kv => (fst kv, ViewCfg (snd kv))) l
              end).
  intros slots. induction slots as [|slot slots IH]; intros acc; simpl; [discriminate|].
  destruct (JsString.has_char at_sign (fst slot)); [apply IH|].
  rewrite views_step_Throw. by intros [= <-].
Qed.

Lemma ownParams_check_Throw_inv name pps o e :
  ownParams_check name pps o = Throw e →
  ∃ q, q ∈ pps ∧ e = MissingRequiredParameter q name.
Proof.
  revert o. induction pps as [|p pps IH]; intros o; simpl; [discriminate|].
  destruct (obj_get p o); simpl.
  - intros Hc. destruct (IH _ Hc) as (q & Hq & ->). exists q. split; [by right | done].
  - intros [= <-]. exists p. split; [by left | done].
Qed.

Lemma stateBuilder_ownParams_Throw name (parent : option record) params e :
  stateBuilder_ownParams name parent params = Throw e →
  ∃ p q, parent = Some p ∧ q ∈ st_params p ∧ e = MissingRequiredParameter q name.
Proof.
  unfold stateBuilder_ownParams. destruct parent as [p|]; [|discriminate].
  destruct (ownParams_check name (st_params p) _) as [o|e'] eqn:Hc; [discriminate|].
  simpl. intros [= <-]. apply ownParams_check_Throw_inv in Hc as (q & Hq & ->). eauto.
Qed.

(** The exceptions of [build] in a well-formed factory. *)
Lemma build_Throw (F : factory) name d e :
  wf_factory F → build F name d = Throw e →
  match e with
  | InvalidUrl | NoReferencePoint _ => True
  | MissingRequiredParameter _ n => n = name
  | ReferenceError ident => ident = "isArray"
  | TypeError access =>
      access = "state.self.data" ∨ access = "state.parent.navigable"
      ∨ access = "state.parent.params" ∨ access = "state.parent.name"
  | _ => False
  end.
Proof.
  intros HF. unfold build.
  destruct (stateBuilder_parent F name (d_parent d)) as [parent|e0] eqn:Hparent;
    cbn [bind].
  2:{ intros [= <-]. by apply stateBuilder_parent_Throw in Hparent as [x ->]. }
  assert (Hp : ∀ p, parent = Some p → states F !! st_name p = Some p)
    by (intros p ->; by eapply stateBuilder_parent_named).
  destruct (stateBuilder_data parent (d_data d)) as [data|e0] eqn:Hdata; cbn [bind].
  2:{ intros [= <-]. apply stateBuilder_data_Throw in Hdata as ->. by left. }
  destruct (stateBuilder_url F parent (d_url d)) as [url|e0] eqn:Hurl; cbn [bind].
  2:{ intros [= <-].
      apply (stateBuilder_url_Throw F parent _ _ HF Hp) in Hurl as [->|[_ ->]];
        [done | right; by left]. }
  destruct (stateBuilder_params parent url (d_params d)) as [params|e0] eqn:Hparams;
    cbn [bind].
  2:{ intros [= <-]. apply stateBuilder_params_Throw in Hparams as [->|[_ ->]];
        [done | right; right; by left]. }
  destruct (stateBuilder_views parent (d_views d)) as [views|e0] eqn:Hviews;
    cbn [bind].
  2:{ intros [= <-]. apply stateBuilder_views_Throw in Hviews as [_ ->].
      right; right; by right. }
  destruct (stateBuilder_ownParams name parent params) as [own|e0] eqn:Hown;
    cbn [bind]; [discriminate|].
  intros [= <-]. by apply stateBuilder_ownParams_Throw in Hown as (p & q & _ & _ & ->).
Qed.

(** An exception of the loop over the queue is the exception of one of
    its calls. *)
Lemma drainQueue_Throw (P : factory → Prop) reg :
  (∀ F c F' res, P F → reg F c = Some (F', res) → P F') →
  ∀ (l : list decl) F F' e,
    P F → drainQueue reg F l = Some (F', Throw e) →
    ∃ G c, P G ∧ c ∈ l ∧ reg G c = Some (F', Throw e).
Proof.
  intros Hreg l. induction l as [|c l IH]; intros F F' e HP Hd; simpl in Hd.
  - discriminate.
  - destruct (reg F c) as [[F1 [v|e1]]|] eqn:Hc; [| |discriminate].
    + destruct (IH F1 F' e) as (G & c' & HG & Hin & Hcall); [by eapply Hreg | done |].
      exists G, c'. split; [done|]. split; [by right | done].
    + injection Hd as <- <-. exists F, c. split; [done|]. split; [by left | done].
Qed.

(** An exception of [registerState] in a well-formed factory is one of
    its name checks or one of [build], for the declaration or for one
    taken from the queue. *)
Lemma registerState_Throw_origin (Q : error → Prop) :
  Q InvalidName → (∀ n, Q (DuplicateState n)) →
  (∀ (F : factory) n d e, wf_factory F → build F n d = Throw e → Q e) →
  ∀ fuel (F : factory) state F' e,
    wf_factory F → registerState fuel F state = Some (F', Throw e) → Q e.
Proof.
  intros Hname Hdup Hbuild.
  induction fuel as [|fuel IH]; intros F state F' e HF Hreg.
  all: apply registerState_cases in Hreg
    as [[-> [[[= ->] _]|[(n & _ & _ & [= ->])|(n & e' & _ & _ & _ & _ & Hb & [= ->])]]]
       |[(n & _ & _ & _ & _ & _ & [=])
        |(n & r & res' & Hn & Hat & Hfresh & _ & Hb & Hdrain & Hres)]];
    try done.
  1,3: by apply (Hbuild F n state).
  all: destruct res' as [v|e']; [discriminate|]; injection Hres as <-.
  all: apply (drainQueue_Throw wf_factory) in Hdrain as (G & c & HG & _ & Hcall);
    [| intros G c G' res HG Hc
     | by apply (wf_factory_store F n state r)].
  - discriminate Hcall.
  - discriminate Hc.
  - exact (IH G c F' e HG Hcall).
  - by apply (registerState_wf fuel G c G' res).
Qed.



(** The parent that [stateBuilder.parent] resolves for a declaration
    that [registerState] does not queue. *)
Lemma stateBuilder_parent_resolved (F : factory) n declared :
  wf_factory F → stores_now F (parentName_of n declared) = true →
  match declared with
  | Some p =>
      if JsString.truthy p
      then stateBuilder_parent F n declared = findState F p None
      else ∀ parent, stateBuilder_parent F n declared = Ok parent →
             ∃ rp, parent = Some rp ∧ st_name rp = default "" (compositeName n)
                   ∧ states F !! default "" (compositeName n) = Some rp
  | None =>
      ∀ parent, stateBuilder_parent F n declared = Ok parent →
        ∃ rp, parent = Some rp ∧ st_name rp = default "" (compositeName n)
              ∧ states F !! default "" (compositeName n) = Some rp
  end.
Proof.
  intros HF Hnow.
  assert (Hby : ∀ parent,
             match compositeName n with
             | Some c => findState F c None
             | None => Ok (deref_root F)
             end = Ok parent →
             ∃ rp, parent = Some rp ∧ st_name rp = default "" (compositeName n)
                   ∧ states F !! default "" (compositeName n) = Some rp).
  { intros parent. destruct (compositeName n) as [c|] eqn:Hc; simpl.
    - destruct (compositeName_prefix n c declared Hc) as [Hpn Hc'].
      rewrite Hpn in Hnow. apply stores_now_spec in Hnow as [->|[rp Hrp]];
        [discriminate|].
      intros Hf. apply findState_no_base_Ok in Hf as ->.
      exists rp. split; [done|]. split; [|done].
      apply (wf_name _ _ _ (wf_records _ HF _ _ Hrp)).
    - destruct (wf_root_record _ HF) as (rt & Hrt & _).
      unfold deref_root. rewrite (wf_root _ HF), Hrt. intros [= <-].
      exists rt. split; [done|]. split; [|done].
      apply (wf_name _ _ _ (wf_records _ HF _ _ Hrt)). }
  unfold stateBuilder_parent.
  destruct declared as [p|]; [destruct (JsString.truthy p)|]; done.
Qed.


(** The own parameters of a state with the parameters of its parent. *)
Lemma stateBuilder_ownParams_inherited name (p : record) :
  NoDup (st_params p) → stateBuilder_ownParams name (Some p) (st_params p) = Ok [].
Proof.
  intros Hnd.
  destruct (stateBuilder_ownParams name (Some p) (st_params p)) as [own|e] eqn:Hown.
  - f_equal. destruct own as [|q own]; [done|].
    destruct (proj1 (stateBuilder_ownParams_mem name p _ _ Hown q)) as [Hin Hnot];
      [by left | done].
  - unfold stateBuilder_ownParams in Hown.
    destruct (ownParams_check_succeeds name (st_params p)
                (fold_left (fun o q => obj_set q true o) (st_params p) []) Hnd)
      as [o' Ho'].
    + intros q Hq. apply obj_get_mark_all. by left.
    + rewrite Ho' in Hown. discriminate.
Qed.

End CallFacts.

(** *** The stored states *)

Section DetailFacts.
Context {matcher : Type} `{UrlMatcherFactory matcher}.
Local Abbreviation decl := (decl matcher).
Local Abbreviation record := (record matcher).
Local Abbreviation factory := (factory matcher).

Lemma wf_detail_store (F : factory) name r' n r :
  states F !! name = None → wf_detail F n r →
  wf_detail (Factory (<[name := r']> (states F)) (queue F) (root F)) n r.
Proof.
  intros Hfresh [Hnav Hurl Hinh Hpath Hdata]. split; simpl.
  - destruct (st_navigable r) as [k|]; [|done].
    destruct Hnav as (Hk & Hinc & rk & m & Hrk & Hrest).
    split; [done|]. split; [done|]. exists rk, m.
    split; [by apply lookup_store_other | done].
  - done.
  - intros Hu. destruct (Hinh Hu) as (p & rp & Hp & Hrp & Hrest).
    exists p, rp. split; [done|]. split; [by apply lookup_store_other | done].
  - destruct Hpath as [Hnd Hel]. split; [done|].
    intros k Hk. destruct (Hel k Hk) as (Hk0 & rk & Hrk & Hrest).
    split; [done|]. exists rk. split; [by apply lookup_store_other | done].
  - intros p Hp. destruct (Hdata p Hp) as (rp & Hrp & Hd).
    exists rp. split; [by apply lookup_store_other | done].
Qed.

Lemma stateBuilder_params_Ok (parent : option record) url declared params :
  stateBuilder_params parent url declared = Ok params →
  match url with
  | Some m => params = parameters m
  | None => ∃ p, parent = Some p ∧ params = st_params p
  end.
Proof.
  destruct declared; simpl; [|discriminate..].
  destruct url as [m|]; [by intros [= <-]|].
  destruct parent as [p|]; [|discriminate]. intros [= <-]. eauto.
Qed.

Lemma stateBuilder_data_Ok (parent : option record) own data :
  stateBuilder_data parent own = Ok data →
  data = own ∧ ∀ p, parent = Some p → st_data p = None.
Proof.
  unfold stateBuilder_data. destruct parent as [p|]; [|by intros [= <-]].
  destruct (st_data p) eqn:Hd; [discriminate|]. intros [= <-].
  split; [done|]. by intros ? [= <-].
Qed.

Lemma wf_details_store (F : factory) name state r :
  wf_details F → d_name state = Some name →
  JsString.has_char at_sign name = false →
  states F !! name = None →
  build F name state = Ok r →
  wf_details (Factory (<[name := r]> (states F)) (queue F) (root F)).
Proof.
  intros [HF Hrec] Hname Hat Hfresh Hbuild.
  split; [by eapply wf_factory_store|].
  intros n r0. simpl. rewrite lookup_insert. case_decide as Hn.
  2:{ intros Hlk. apply wf_detail_store; [exact Hfresh | by apply Hrec]. }
  subst n. intros [= <-].
  assert (Hne : name ≠ "").
  { intros ->. destruct (wf_root_record _ HF) as (rt & Hrt & _). congruence. }
  apply build_Ok in Hbuild
    as (parent & data & url & params & views & own
        & Hparent & Hdata & _ & Hparams & _ & _ & ->).
  assert (Hstored : ∀ p, parent = Some p →
            states F !! st_name p = Some p ∧ wf_detail F (st_name p) p).
  { intros p ->. pose proof (stateBuilder_parent_named _ _ _ _ HF Hparent) as Hp.
    split; [done | by apply Hrec]. }
  apply stateBuilder_params_Ok in Hparams.
  apply stateBuilder_data_Ok in Hdata as [-> Hdata].
  split; simpl.
  - unfold stateBuilder_navigable, stateBuilder_includes.
    destruct url as [m|].
    + split; [done|]. split; [apply lookup_insert_eq|].
      eexists _, m. rewrite lookup_insert_eq. split; [reflexivity|]. simpl. done.
    + destruct Hparams as (p & -> & ->).
      destruct (Hstored p eq_refl) as [Hp Hwd].
      pose proof (wd_navigable _ _ _ Hwd) as Hnav.
      destruct (st_navigable p) as [k|].
      * destruct Hnav as (Hk & Hinc & rk & m & Hrk & Hrest).
        split; [done|]. split.
        { rewrite lookup_insert. case_decide; [done | exact Hinc]. }
        exists rk, m. split; [by apply lookup_store_other | done].
      * destruct Hnav as [Hpar _]. done.
  - intros _ [m ->]. done.
  - intros ->. destruct Hparams as (p & -> & ->).
    destruct (Hstored p eq_refl) as [Hp _].
    exists (st_name p), p. split; [done|].
    split; [by apply lookup_store_other | done].
  - unfold stateBuilder_path. destruct parent as [p|].
    2:{ split; [apply NoDup_nil_2 | intros k Hk; by apply elem_of_nil in Hk]. }
    destruct (Hstored p eq_refl) as [Hp Hwd].
    destruct (wd_path _ _ _ Hwd) as [Hnd Hel].
    assert (Hnotin : name ∉ st_path p).
    { intros Hin. destruct (Hel name Hin) as (_ & rk & Hrk & _). congruence. }
    split.
    + apply NoDup_app. split; [done|]. split; [|apply NoDup_singleton].
      intros x Hx Hx'. apply list_elem_of_singleton in Hx' as ->. done.
    + intros k Hk. apply elem_of_app in Hk as [Hk|Hk].
      * destruct (Hel k Hk) as (Hk0 & rk & Hrk & Hpre & Hlast).
        split; [done|]. exists rk. split; [by apply lookup_store_other|].
        split; [by apply prefix_app_r | done].
      * apply list_elem_of_singleton in Hk as ->. split; [done|].
        eexists. rewrite lookup_insert_eq. split; [reflexivity|]. simpl.
        split; [done | apply last_snoc].
  - intros p0. destruct parent as [p|]; [|discriminate]. simpl. intros [= <-].
    destruct (Hstored p eq_refl) as [Hp _]. exists p.
    split; [by apply lookup_store_other | by apply Hdata].
Qed.

Lemma stateFactory_details (F : factory) : stateFactory = Some F → wf_details F.
Proof.
  intros HF. split; [by apply stateFactory_wf|].
  rewrite stateFactory_eq in HF. injection HF as <-. simpl.
  intros n r Hlk. apply lookup_singleton_Some in Hlk as [<- <-].
  split; simpl; try done.
  split; [apply NoDup_nil_2 | intros k Hk; by apply elem_of_nil in Hk].
Qed.

Lemma reachable_details (F : factory) : reachable F → wf_details F.
Proof.
  induction 1 as [F HF | fuel F state F' res _ IH Hreg].
  - by apply stateFactory_details.
  - revert IH Hreg. apply (registerState_preserves wf_details).
    + intros G pn d [HG Hrec]. split; [by apply wf_factory_queueState|].
      intros n r Hn. destruct (Hrec n r Hn) as [? ? ? ? ?]. by split.
    + intros. by eapply wf_details_store.
Qed.

End DetailFacts.

Section StoredFacts.
Context {matcher : Type} `{UrlMatcherFactory matcher}.
Local Abbreviation decl := (decl matcher).
Local Abbreviation record := (record matcher).
Local Abbreviation factory := (factory matcher).





(** Property X17.  In every factory built by the constructor and calls
    of [registerState] the root is the state that the constructor left:
    registered under the empty name, without parent, data or navigable
    state, with the matcher compiled from the empty pattern, its
    parameters, no views, an empty path and itself as only include. *)
Theorem root_of_reachable_factory (F : factory) :
  reachable F →
  root F = Some ""
  ∧ deref_root F
    = Some (Record_ "" None None (Some (compile "")) None
                    (parameters (compile "")) ∅ (parameters (compile "")) []
                    {[ "" := true ]} (Some true)).
Proof.
  intros HF.
  assert (Hroot : root F = Some "") by apply (wf_root _ (reachable_wf _ HF)).
  split; [done|]. unfold deref_root. rewrite Hroot.
  induction HF as [F HF | fuel F state F' res HF IH Hreg].
  - rewrite stateFactory_eq in HF. injection HF as <-. simpl.
    apply lookup_singleton_eq.
  - destruct (registerState_grows fuel F state F' res Hreg) as [Hsub Hrt].
    apply (lookup_weaken (states F)); [|done]. apply IH. congruence.
Qed.


End StoredFacts.

(** *** [findState] and [state] *)

Section FindFacts.
Context {matcher : Type} `{UrlMatcherFactory matcher}.
Local Abbreviation decl := (decl matcher).
Local Abbreviation record := (record matcher).
Local Abbreviation factory := (factory matcher).

Lemma split_cons c s : ∃ h t, JsString.split c s = h :: t.
Proof.
  destruct s as [|a s]; simpl; [eauto|].
  destruct (Ascii.eqb a c); [eauto|]. destruct (JsString.split c s); eauto.
Qed.

(** Joining the segments of a string gives the string back. *)
Lemma join_split s : JsString.join "." (JsString.split dot s) = s.
Proof.
  induction s as [|a s IH]; [reflexivity|]. cbn [JsString.split].
  destruct (Ascii.eqb a dot) eqn:Ha.
  - apply Ascii.eqb_eq in Ha as ->.
    destruct (split_cons dot s) as (h & t & Hs). rewrite Hs in IH |- *.
    change (JsString.join "." ("" :: h :: t))
      with ("" ++ "." ++ JsString.join "." (h :: t)).
    by rewrite IH.
  - destruct (JsString.split dot s) as [|h [|h' t]].
    + simpl in IH. by subst s.
    + simpl in IH |- *. by rewrite IH.
    + change (JsString.join "." (String a h :: h' :: t))
        with (String a (h ++ "." ++ JsString.join "." (h' :: t))).
      change (JsString.join "." (h :: h' :: t))
        with (h ++ "." ++ JsString.join "." (h' :: t)) in IH.
      by rewrite IH.
Qed.

(** The first segment of a string that does not start with [^] is not
    [^]. *)
Lemma split_first_not_caret s h t :
  JsString.starts_with caret s = false → JsString.split dot s = h :: t →
  String.eqb h "^" = false.
Proof.
  destruct s as [|a s]; simpl.
  - intros _ [= <- _]. reflexivity.
  - intros Ha. unfold caret in Ha. destruct (Ascii.eqb a dot); [by intros [= <- _]|].
    destruct (JsString.split dot s); intros [= <- _]; cbn [String.eqb]; by rewrite Ha.
Qed.

(** The walk of [findState] over segments that do not start with [^],
    past a first segment. *)
Lemma findState_walk_stops (F : factory) name base i rest current :
  JsString.starts_with caret rest = false →
  findState_walk F name base (S i) (JsString.split dot rest) current
  = Ok (current, JsString.split dot rest).
Proof.
  intros Hrest. destruct (split_cons dot rest) as (h & t & Hs).
  rewrite Hs. cbn [findState_walk]. rewrite andb_false_r.
  by rewrite (split_first_not_caret rest h t Hrest Hs).
Qed.

Lemma append_empty_r s : s ++ "" = s.
Proof.
  induction s as [|a s IH]; [done|].
  change (String a (s ++ "") = String a s). by rewrite IH.
Qed.

(** Property X20.  Relative references spelled out.  For [rest] that
    does not start with [^], the reference [.rest] from a base is the
    state registered under the name of the base joined with [rest] (a dot
    between them only when neither is empty); from a registered base with
    a parent, [^.rest] is the state registered under the name of the
    parent joined with [rest], and [^] is the parent. *)
Theorem relative_reference_to_child_and_sibling (F : factory) (b : record) rest :
  JsString.starts_with caret rest = false →
  let joined (anchor : string) :=
    anchor ++ (if JsString.truthy anchor && JsString.truthy rest then "." else "")
           ++ rest in
  findState F ("." ++ rest) (Some b) = Ok (states F !! joined (st_name b))
  ∧ (∀ p, reachable F → states F !! st_name b = Some b → st_parent b = Some p →
          findState F ("^." ++ rest) (Some b) = Ok (states F !! joined p)
          ∧ findState F "^" (Some b) = Ok (states F !! p)).
Proof.
  intros Hrest joined. split.
  - change ("." ++ rest) with (String "." rest).
    unfold findState. cbn [isRelative JsString.starts_with].
    change (Ascii.eqb "." dot) with true. cbn [orb].
    cbn [JsString.split]. change (Ascii.eqb "." dot) with true. cbn iota.
    cbn [findState_walk String.eqb Nat.eqb andb].
    rewrite (findState_walk_stops F _ b 0 rest b Hrest). cbn [bind fst snd].
    by rewrite join_split.
  - intros p HF Hb Hp. apply reachable_wf in HF.
    pose proof (wf_parent _ _ _ (wf_records _ HF _ _ Hb)) as Hpar.
    rewrite Hp in Hpar. destruct Hpar as (rp & Hrp & _).
    pose proof (wf_name _ _ _ (wf_records _ HF _ _ Hrp)) as Hname.
    split.
    + change ("^." ++ rest) with (String "^" (String "." rest)).
      unfold findState. cbn [isRelative JsString.starts_with].
      change (Ascii.eqb "^" dot) with false. change (Ascii.eqb "^" caret) with true.
      cbn [orb]. cbn [JsString.split].
      change (Ascii.eqb "^" dot) with false. change (Ascii.eqb "." dot) with true.
      cbn iota. destruct (split_cons dot rest) as (h & t & Hs).
      rewrite Hs. rewrite <- Hs.
      cbn [findState_walk]. change (String.eqb "^" "") with false.
      change (String.eqb "^" "^") with true. cbn [andb]. cbn iota.
      rewrite Hp, Hrp.
      rewrite (findState_walk_stops F _ b 0 rest rp Hrest). cbn [bind fst snd].
      by rewrite join_split, Hname.
    + unfold findState. cbn [isRelative JsString.starts_with].
      change (Ascii.eqb "^" dot) with false. change (Ascii.eqb "^" caret) with true.
      cbn [orb]. cbn [JsString.split].
      change (Ascii.eqb "^" dot) with false. cbn iota.
      cbn [findState_walk]. change (String.eqb "^" "") with false.
      change (String.eqb "^" "^") with true. cbn [andb]. cbn iota.
      rewrite Hp, Hrp. cbn [bind fst snd JsString.join JsString.truthy].
      rewrite andb_false_r, Hname. change ("" ++ "") with "".
      change (isRelative "^") with true. cbn iota.
      by rewrite append_empty_r, Hrp.
Qed.

Lemma findState_walk_Throw (F : factory) name base :
  wf_factory F → states F !! st_name base = Some base →
  ∀ segs i current e,
    states F !! st_name current = Some current →
    findState_walk F name base i segs current = Throw e →
    e = InvalidRelativePath name (st_name base)
    ∧ ∃ anchor, states F !! st_name anchor = Some anchor ∧ st_parent anchor = None.
Proof.
  intros HF Hbase. induction segs as [|seg rest IH]; intros i current e Hcur;
    cbn [findState_walk]; [discriminate|].
  destruct (String.eqb seg "" && Nat.eqb i 0); [by apply IH|].
  destruct (String.eqb seg "^"); [|discriminate].
  pose proof (wf_parent _ _ _ (wf_records _ HF _ _ Hcur)) as Hpar.
  destruct (st_parent current) as [k|] eqn:Hk.
  - destruct Hpar as (rp & Hrp & _). rewrite Hrp. apply IH.
    by rewrite (wf_name _ _ _ (wf_records _ HF _ _ Hrp)).
  - intros [= <-]. eauto.
Qed.


End FindFacts.

Section EntryFacts.
Context {matcher : Type} `{UrlMatcherFactory matcher}.
Local Abbreviation decl := (decl matcher).
Local Abbreviation record := (record matcher).
Local Abbreviation factory := (factory matcher).


(** What a call that returns without an exception leaves of its
    declaration: the state stored under its name, or the declaration at
    the end of the list queued under the name it waits for. *)
Lemma registerState_Ok_registered fuel (F : factory) d F' v n :
  d_name d = Some n → registerState fuel F d = Some (F', Ok v) →
  match v with
  | Stored r => states F' !! n = Some r
  | Deferred =>
      states F' = states F
      ∧ ∃ ds, queue F' !! parentName_of n (d_parent d) = Some (ds ++ [d])%list
  end.
Proof.
  intros Hn Hreg. apply registerState_Ok_inv in Hreg as (n' & Hn' & _ & _ & Hcase).
  assert (n' = n) as -> by congruence.
  destruct Hcase as [(_ & -> & ->)|(_ & r & _ & -> & Hdrain)].
  - split; [done|]. rewrite queue_queueState.
    rewrite decide_True by done. eauto.
  - destruct (drainQueue_states_grow (reg_of fuel) (reg_of_grows fuel) _ _ _ _ Hdrain)
      as [Hsub _].
    apply (lookup_weaken _ _ _ _ (lookup_insert_eq _ n r) Hsub).
Qed.


End EntryFacts.

(** ** Worked declarations *)

Section Worked.

Import PatternMatcher Examples.

Lemma fresh_reachable : reachable fresh.
Proof. apply reachable_new. vm_compute. reflexivity. Qed.

Lemma after_reachable l : reachable (after l).
Proof.
  unfold after. destruct (registerAll 8 fresh l) as [[F res]|] eqn:Hrun.
  - exact (registerAll_reachable 8 fresh l F res fresh_reachable Hrun).
  - exact fresh_reachable.
Qed.



(** Claim C2, at the failing input.  ["a"] is registered with the data
    [{k: 1}]; registering ["a.b"] with the data [{j: 2}] finds ["a"] as
    parent and raises a [TypeError] in the data rule, where the
    specification has the merged mapping [{j: 2, k: 1}]; nothing is
    stored for ["a.b"]. *)
Theorem data_under_parent_with_data_raises :
  let F := after [with_data "a" {[ "k" := JNum 1 ]}] in
  let child := with_data "a.b" {[ "j" := JNum 2 ]} in
  st_data <$> states F !! "a" = Some (Some {[ "k" := JNum 1 ]})
  ∧ stateBuilder_parent F "a.b" (d_parent child) = Ok (states F !! "a")
  ∧ spec_data (Some {[ "k" := JNum 1 ]}) (d_data child)
    = Some {[ "j" := JNum 2; "k" := JNum 1 ]}
  ∧ registerState 8 F child
    = Some (F, Throw (TypeError "state.self.data"))
  ∧ states F !! "a.b" = None.
Proof.
  repeat split; vm_compute; reflexivity.
Qed.

(** Claim C3, at the failing input.  For [{name: "a.b", parent: "c"}]
    the specification has the parent name ["c"]; [registerState] waits
    for ["a"]: with ["c"] registered and ["a"] not, the declaration is
    queued under ["a"], although [stateBuilder.parent] would look up
    ["c"] and find it. *)
Theorem explicit_parent_ignored_for_dotted_name :
  let F := after [named "c"] in
  parentName_of "a.b" (Some "c") = "a"
  ∧ spec_parentName "a.b" (Some "c") = "c"
  ∧ is_Some (states F !! "c")
  ∧ stateBuilder_parent F "a.b" (Some "c") = Ok (states F !! "c")
  ∧ registerState 8 F b_under_c = Some (queueState F "a" b_under_c, Ok Deferred)
  ∧ queue (queueState F "a" b_under_c) !! "a" = Some [b_under_c]
  ∧ queue (queueState F "a" b_under_c) !! "c" = None.
Proof.
  repeat split; try (vm_compute; reflexivity).
  vm_compute. eexists; reflexivity.
Qed.

(** Claim C4, at the failing input.  Registering
    [{name: "x", url: "/x", params: ["p"]}] on a new factory raises a
    [ReferenceError] for [isArray], not the error for a state with both
    [params] and [url]; nothing is stored for ["x"]. *)
Theorem params_with_url_raises_reference_error :
  registerState 8 fresh x_params_url = Some (fresh, Throw (ReferenceError "isArray"))
  ∧ registerState 8 fresh x_params_url ≠ Some (fresh, Throw ConflictingParamsAndUrl)
  ∧ states fresh !! "x" = None.
Proof.
  repeat split; try (vm_compute; reflexivity).
  vm_compute. discriminate.
Qed.






Lemma relative_url_under_root_witness :
  let state := with_url "x" "/x" in
  let p := stored fresh "" in
  stateBuilder_parent fresh "x" (d_parent state) = Ok (Some p)
  ∧ st_navigable p = None
  ∧ JsString.starts_with caret "/x" = false
  ∧ stateBuilder_url fresh (Some p) (d_url state) = Ok (Some (concat (compile "") "/x"))
  ∧ registerState 8 fresh state
    = Some (after [state], Ok (Stored (stored (after [state]) "x")))
  ∧ st_url (stored (after [state]) "x") = Some (concat (compile "") "/x").
Proof.
  intros state p.
  assert (Hp : stateBuilder_parent fresh "x" (d_parent state) = Ok (Some p))
    by (vm_compute; reflexivity).
  destruct (relative_url_under_root fresh "x" state p "/x" fresh_reachable
              eq_refl Hp eq_refl eq_refl eq_refl) as (_ & Hrule & Hstored).
  split; [exact Hp|]. split; [reflexivity|]. split; [reflexivity|].
  split; [exact Hrule|].
  assert (Hreg : registerState 8 fresh state
                 = Some (after [state], Ok (Stored (stored (after [state]) "x"))))
    by (vm_compute; reflexivity).
  split; [exact Hreg|].
  exact (Hstored 8 _ _ Hreg).
Defined.

End Worked.

(** ** Worked declarations for the further properties *)

Section WorkedMore.

Import PatternMatcher Examples.


Lemma registerState_keeps_queue_witness :
  let F := after [named "a.b"] in
  let F' := after [named "a.b"; named "a"] in
  registerState 8 F (named "a") = Some (F', Ok (Stored (stored F' "a")))
  ∧ queue F !! "a" = Some [named "a.b"]
  ∧ ∀ k ds, queue F !! k = Some ds → ∃ ds', queue F' !! k = Some (ds ++ ds')%list.
Proof.
  intros F F'.
  assert (Hreg : registerState 8 F (named "a")
                 = Some (F', Ok (Stored (stored F' "a"))))
    by (vm_compute; reflexivity).
  split; [exact Hreg|]. split; [vm_compute; reflexivity|].
  exact (registerState_keeps_queue 8 F (named "a") F' _ Hreg).
Defined.





Lemma registerState_terminates_witness :
  let F := after [named "a.b.c"; named "a.b"] in
  size (queued_names F ∖ dom (states F)) = 2%nat
  ∧ ∃ out, ∀ fuel, (size (queued_names F ∖ dom (states F)) < fuel)%nat →
      registerState fuel F (named "a") = Some out.
Proof.
  intros F. split; [vm_compute; reflexivity|].
  apply (registerState_terminates F (named "a")). apply after_reachable.
Defined.









Lemma root_of_reachable_factory_witness :
  let F := after a_b_c in
  root F = Some ""
  ∧ deref_root F
    = Some (Record_ "" None None (Some (compile "")) None
                    (parameters (compile "")) ∅ (parameters (compile "")) []
                    {[ "" := true ]} (Some true)).
Proof.
  intros F. apply (root_of_reachable_factory F). apply after_reachable.
Defined.



Lemma relative_reference_to_child_and_sibling_witness :
  let F := after [named "a"; named "a.b"; named "a.c"] in
  findState F ".b" (Some (stored F "a")) = Ok (Some (stored F "a.b"))
  ∧ findState F "^.b" (Some (stored F "a.c")) = Ok (Some (stored F "a.b"))
  ∧ findState F "^" (Some (stored F "a.c")) = Ok (Some (stored F "a")).
Proof.
  intros F.
  destruct (relative_reference_to_child_and_sibling F (stored F "a") "b" eq_refl)
    as [Hchild _].
  destruct (relative_reference_to_child_and_sibling F (stored F "a.c") "b" eq_refl)
    as [_ Hsibling].
  destruct (Hsibling "a") as [Hs Hp].
  - apply after_reachable.
  - vm_compute; reflexivity.
  - reflexivity.
  - split; [|split].
    + etrans; [exact Hchild|]. vm_compute; reflexivity.
    + etrans; [exact Hs|]. vm_compute; reflexivity.
    + etrans; [exact Hp|]. vm_compute; reflexivity.
Defined.


End WorkedMore.
